(** * ConnectionPool: a shallow embedding of CommonConnectionPool.cpp

    The pool is one shared object guarded by one mutex.  Every access to
    the idle queue and to the live counter happens inside a critical
    section, so each critical section is a function on the shared state
    and the threads interleave at the granularity of those sections.  A
    condition-variable wait ends a section: the waiting thread resumes at
    the head of its loop, with the lock held again, after the other
    threads have run. *)

From Stdlib Require Import ZArith Ascii String.
From stdpp Require Import base relations list strings gmap sorting.

Open Scope Z_scope.

(** ** Machine integers *)

Definition INT_MIN : Z := -2147483648.
Definition INT_MAX : Z := 2147483647.

Definition Int_ok (z : Z) : Prop := INT_MIN <= z <= INT_MAX.

(** Two's complement reduction of a 32-bit [int] result. *)
Definition wrap_int (z : Z) : Z := (z + 2147483648) mod 4294967296 - 2147483648.

Definition in_int (z : Z) : bool := (INT_MIN <=? z) && (z <=? INT_MAX).

(** ** std::stoi *)

Inductive exn : Type :=
| invalid_argument
| out_of_range.

Inductive stoi_result : Type :=
| Parsed (n : Z)
| StoiThrows (e : exn).

Definition isspace (c : ascii) : bool :=
  let n := nat_of_ascii c in
  ((n =? 32) || ((9 <=? n) && (n <=? 13)))%nat.

Definition digit_of (c : ascii) : option Z :=
  let n := nat_of_ascii c in
  if ((48 <=? n) && (n <=? 57))%nat then Some (Z.of_nat n - 48) else None.

Fixpoint skip_space (s : string) : string :=
  match s with
  | String c s' => if isspace c then skip_space s' else s
  | EmptyString => s
  end.

(** The decimal digits at the front of [s]; [None] while no digit has
    been read. *)
Fixpoint digits_value (s : string) (acc : option Z) : option Z :=
  match s with
  | String c s' =>
      match digit_of c with
      | Some d => digits_value s' (Some (10 * default 0 acc + d))
      | None => acc
      end
  | EmptyString => acc
  end.

Definition strip_sign (s : string) : bool * string :=
  match s with
  | String "-"%char s' => (true, s')
  | String "+"%char s' => (false, s')
  | _ => (false, s)
  end.

(** [std::stoi(value)]: leading white space, an optional sign, decimal
    digits; what follows the digits is not looked at.  No digit raises
    [std::invalid_argument], a value outside [int] raises
    [std::out_of_range]. *)
Definition stoi (s : string) : stoi_result :=
  let '(neg, body) := strip_sign (skip_space s) in
  match digits_value body None with
  | None => StoiThrows invalid_argument
  | Some v =>
      let n := if neg then - v else v in
      if in_int n then Parsed n else StoiThrows out_of_range
  end.

(** ** Input streams and std::getline *)

Record istream : Type := mkStream {
  rdbuf : string;
  eofbit : bool;
  failbit : bool
}.

Definition open_stream (content : string) : istream :=
  {| rdbuf := content; eofbit := false; failbit := false |}.

(** Characters up to the first [delim]; the second component is the
    rest of the buffer behind the delimiter, [None] when the buffer ended
    first. *)
Fixpoint extract_until (delim : ascii) (s : string) : string * option string :=
  match s with
  | EmptyString => (EmptyString, None)
  | String c s' =>
      if Ascii.eqb c delim then (EmptyString, Some s')
      else let '(str, rest) := extract_until delim s' in (String c str, rest)
  end.

(** [std::getline(is, str, delim)] with the stream state after the call
    and its truth value as a condition.  The delimiter is extracted and
    dropped; a call that extracts nothing sets [failbit]; a stream that
    is not good fails at once. *)
Definition getline (ins : istream) (delim : ascii) : istream * string * bool :=
  if eofbit ins || failbit ins then
    ({| rdbuf := rdbuf ins; eofbit := eofbit ins; failbit := true |}, EmptyString, false)
  else
    match extract_until delim (rdbuf ins) with
    | (str, Some rest) =>
        ({| rdbuf := rest; eofbit := false; failbit := false |}, str, true)
    | (str, None) =>
        let empty := String.eqb str EmptyString in
        ({| rdbuf := EmptyString; eofbit := true; failbit := empty |}, str, negb empty)
    end.

Definition newline : ascii := "010"%char.

(** ** Connections *)

(** Modelled from the spec: the Connection class (Connection.h is not
    part of the sources): a backend session with an idle-since time
    stamp; [connect] reports success as a bool, [refreshAliveTime] stamps
    the current time, the idle duration is the time since the stamp. *)
Record Connection : Type := mkConn {
  conn_id : nat;
  conn_connected : bool;
  _alivetime : Z
}.

Global Instance Connection_eq_dec : EqDecision Connection.
Proof. solve_decision. Defined.

(** ** The pool object and the world around it *)

Record ConnectionPool : Type := mkPool {
  _ip : string;
  _port : Z;
  _username : string;
  _password : string;
  _dbname : string;
  _initSize : Z;
  _maxSize : Z;
  _maxIdleTime : Z;
  _connectionTimeout : Z;
  _connectionQue : list Connection;
  _connectionCnt : Z
}.

(** What the pool does to its surroundings, in program order. *)
Inductive Event : Type :=
| EvNew (id : nat)
| EvConnect (id : nat) (ok : bool)
| EvRefresh (id : nat) (t : Z)
| EvPush (id : nat)
| EvPop (id : nat)
| EvCntIncr
| EvCntDecr
| EvDelete (id : nat)
| EvNotifyAll
| EvLog (msg : string).

Global Instance Event_eq_dec : EqDecision Event.
Proof. solve_decision. Defined.

Record World : Type := mkWorld {
  pool : ConnectionPool;
  now : Z;                      (* the clock *)
  next_id : nat;                (* connections allocated so far *)
  leased : list Connection;     (* connections held by a live shared_ptr *)
  trace : list Event
}.

Definition que (w : World) : list Connection := _connectionQue (pool w).
Definition cnt (w : World) : Z := _connectionCnt (pool w).

Definition set_pool (p : ConnectionPool) (w : World) : World :=
  {| pool := p; now := now w; next_id := next_id w; leased := leased w; trace := trace w |}.

Definition set_que (q : list Connection) (p : ConnectionPool) : ConnectionPool :=
  {| _ip := _ip p; _port := _port p; _username := _username p; _password := _password p;
     _dbname := _dbname p; _initSize := _initSize p; _maxSize := _maxSize p;
     _maxIdleTime := _maxIdleTime p; _connectionTimeout := _connectionTimeout p;
     _connectionQue := q; _connectionCnt := _connectionCnt p |}.

Definition set_cnt (c : Z) (p : ConnectionPool) : ConnectionPool :=
  {| _ip := _ip p; _port := _port p; _username := _username p; _password := _password p;
     _dbname := _dbname p; _initSize := _initSize p; _maxSize := _maxSize p;
     _maxIdleTime := _maxIdleTime p; _connectionTimeout := _connectionTimeout p;
     _connectionQue := _connectionQue p; _connectionCnt := c |}.

Definition set_leased (l : list Connection) (w : World) : World :=
  {| pool := pool w; now := now w; next_id := next_id w; leased := l; trace := trace w |}.

Definition emit (e : Event) (w : World) : World :=
  {| pool := pool w; now := now w; next_id := next_id w; leased := leased w;
     trace := trace w ++ [e] |}.

(** Time passing while no thread runs. *)
Definition tick (d : Z) (w : World) : World :=
  {| pool := pool w; now := now w + d; next_id := next_id w; leased := leased w;
     trace := trace w |}.

(** The configuration, which no thread writes after the constructor. *)
Definition same_config (p q : ConnectionPool) : Prop :=
  _ip p = _ip q /\ _port p = _port q /\ _username p = _username q /\
  _password p = _password q /\ _dbname p = _dbname q /\
  _initSize p = _initSize q /\ _maxSize p = _maxSize q /\
  _maxIdleTime p = _maxIdleTime q /\ _connectionTimeout p = _connectionTimeout q.

(** The values an [int] member can hold. *)
Definition ints_ok (p : ConnectionPool) : Prop :=
  Int_ok (_initSize p) /\ Int_ok (_maxSize p) /\ Int_ok (_maxIdleTime p) /\
  Int_ok (_connectionTimeout p) /\ Int_ok (_connectionCnt p).

(** ** Outcomes and the monad of pool code *)

Inductive outcome (A : Type) : Type :=
| Normal (a : A) (w : World)
| Threw (e : exn) (w : World)        (* an exception nobody catches *)
| Undefined (w : World).             (* front() or pop() of an empty std::queue *)

Arguments Normal {A} a w.
Arguments Threw {A} e w.
Arguments Undefined {A} w.

Definition M (A : Type) : Type := World -> outcome A.

Definition ret {A} (a : A) : M A := fun w => Normal a w.

Definition bind {A B} (m : M A) (k : A -> M B) : M B :=
  fun w =>
    match m w with
    | Normal a w' => k a w'
    | Threw e w' => Threw e w'
    | Undefined w' => Undefined w'
    end.

Notation "'let*' x ':=' m 'in' k" := (bind m (fun x => k))
  (at level 10, x pattern, m at level 100, k at level 200).
Notation "m ';;' k" := (bind m (fun _ => k))
  (at level 100, k at level 200, right associativity).

Definition world_of {A} (o : outcome A) : World :=
  match o with
  | Normal _ w => w
  | Threw _ w => w
  | Undefined w => w
  end.

Definition get {A} (f : World -> A) : M A := fun w => Normal (f w) w.
Definition modify (f : World -> World) : M unit := fun w => Normal tt (f w).
Definition throw {A} (e : exn) : M A := fun w => Threw e w.
Definition undefined {A} : M A := fun w => Undefined w.

(** ** Primitive operations *)

Definition set_ip (v : string) (p : ConnectionPool) : ConnectionPool :=
  mkPool v (_port p) (_username p) (_password p) (_dbname p) (_initSize p) (_maxSize p)
    (_maxIdleTime p) (_connectionTimeout p) (_connectionQue p) (_connectionCnt p).
Definition set_port (v : Z) (p : ConnectionPool) : ConnectionPool :=
  mkPool (_ip p) v (_username p) (_password p) (_dbname p) (_initSize p) (_maxSize p)
    (_maxIdleTime p) (_connectionTimeout p) (_connectionQue p) (_connectionCnt p).
Definition set_username (v : string) (p : ConnectionPool) : ConnectionPool :=
  mkPool (_ip p) (_port p) v (_password p) (_dbname p) (_initSize p) (_maxSize p)
    (_maxIdleTime p) (_connectionTimeout p) (_connectionQue p) (_connectionCnt p).
Definition set_password (v : string) (p : ConnectionPool) : ConnectionPool :=
  mkPool (_ip p) (_port p) (_username p) v (_dbname p) (_initSize p) (_maxSize p)
    (_maxIdleTime p) (_connectionTimeout p) (_connectionQue p) (_connectionCnt p).
Definition set_dbname (v : string) (p : ConnectionPool) : ConnectionPool :=
  mkPool (_ip p) (_port p) (_username p) (_password p) v (_initSize p) (_maxSize p)
    (_maxIdleTime p) (_connectionTimeout p) (_connectionQue p) (_connectionCnt p).
Definition set_initSize (v : Z) (p : ConnectionPool) : ConnectionPool :=
  mkPool (_ip p) (_port p) (_username p) (_password p) (_dbname p) v (_maxSize p)
    (_maxIdleTime p) (_connectionTimeout p) (_connectionQue p) (_connectionCnt p).
Definition set_maxSize (v : Z) (p : ConnectionPool) : ConnectionPool :=
  mkPool (_ip p) (_port p) (_username p) (_password p) (_dbname p) (_initSize p) v
    (_maxIdleTime p) (_connectionTimeout p) (_connectionQue p) (_connectionCnt p).
Definition set_maxIdleTime (v : Z) (p : ConnectionPool) : ConnectionPool :=
  mkPool (_ip p) (_port p) (_username p) (_password p) (_dbname p) (_initSize p) (_maxSize p)
    v (_connectionTimeout p) (_connectionQue p) (_connectionCnt p).
Definition set_connectionTimeout (v : Z) (p : ConnectionPool) : ConnectionPool :=
  mkPool (_ip p) (_port p) (_username p) (_password p) (_dbname p) (_initSize p) (_maxSize p)
    (_maxIdleTime p) v (_connectionQue p) (_connectionCnt p).

Definition update (f : ConnectionPool -> ConnectionPool) : M unit :=
  modify (fun w => set_pool (f (pool w)) w).

(** The LOG macro of public.h (not part of the sources): one line to the
    log sink. *)
Definition LOG (msg : string) : M unit := modify (emit (EvLog msg)).

Definition notify_all : M unit := modify (emit EvNotifyAll).

(** [_connectionQue.empty()] *)
Definition que_empty : M bool :=
  get (fun w => match que w with [] => true | _ => false end).

(** [_connectionQue.front()]: undefined on an empty std::queue. *)
Definition que_front : M Connection :=
  fun w => match que w with
           | [] => Undefined w
           | p :: _ => Normal p w
           end.

(** [_connectionQue.pop()]: undefined on an empty std::queue. *)
Definition que_pop : M unit :=
  fun w => match que w with
           | [] => Undefined w
           | p :: q => Normal tt (emit (EvPop (conn_id p)) (set_pool (set_que q (pool w)) w))
           end.

(** [_connectionQue.push(p)] *)
Definition que_push (p : Connection) : M unit :=
  modify (fun w => emit (EvPush (conn_id p)) (set_pool (set_que (que w ++ [p]) (pool w)) w)).

(** [_connectionCnt++] and [_connectionCnt--] on a 32-bit counter. *)
Definition cnt_incr : M unit :=
  modify (fun w => emit EvCntIncr (set_pool (set_cnt (wrap_int (cnt w + 1)) (pool w)) w)).
Definition cnt_decr : M unit :=
  modify (fun w => emit EvCntDecr (set_pool (set_cnt (wrap_int (cnt w - 1)) (pool w)) w)).

(** [new Connection()] *)
Definition new_Connection : M Connection :=
  fun w =>
    Normal {| conn_id := next_id w; conn_connected := false; _alivetime := 0 |}
      {| pool := pool w; now := now w; next_id := S (next_id w); leased := leased w;
         trace := trace w ++ [EvNew (next_id w)] |}.

(** [p->refreshAliveTime()] *)
Definition refreshAliveTime (p : Connection) : M Connection :=
  fun w =>
    Normal {| conn_id := conn_id p; conn_connected := conn_connected p; _alivetime := now w |}
      (emit (EvRefresh (conn_id p) (now w)) w).

(** [p->getAliveeTime()] *)
Definition getAliveeTime (p : Connection) : M Z :=
  get (fun w => now w - _alivetime p).

(** [delete p] *)
Definition delete_Connection (p : Connection) : M unit :=
  modify (emit (EvDelete (conn_id p))).

Definition timeout_msg : string := "获取空闲连接超时了...获取连接失败!".
Definition no_file_msg : string := "mysql.ini file is not exist!".

Section Pool.

(** The conversion from [int] to the declared type of [_port]
    (CommonConnectionPool.h is not part of the sources). *)
Variable port_cast : Z -> Z.

(** Whether the backend accepts the connection with a given identity. *)
Variable connect_ok : nat -> bool.

(** [p->connect(_ip, _port, _username, _password, _dbname)]; the callers
    drop its result. *)
Definition connect (p : Connection) : M (bool * Connection) :=
  fun w =>
    let ok := connect_ok (conn_id p) in
    Normal (ok, {| conn_id := conn_id p; conn_connected := ok; _alivetime := _alivetime p |})
      (emit (EvConnect (conn_id p) ok) w).

(** ** loadConfigFile *)

Definition assign_int (setter : Z -> ConnectionPool -> ConnectionPool) (value : string) : M unit :=
  match stoi value with
  | Parsed n => update (setter n)
  | StoiThrows e => throw e
  end.

Definition configMap : gmap string (string -> M unit) :=
  list_to_map
    [ ("ip"%string, fun value => update (set_ip value));
      ("port"%string, assign_int (fun n => set_port (port_cast n)));
      ("username"%string, fun value => update (set_username value));
      ("password"%string, fun value => update (set_password value));
      ("dbname"%string, fun value => update (set_dbname value));
      ("initSize"%string, assign_int set_initSize);
      ("maxSize"%string, assign_int set_maxSize);
      ("maxIdleTime"%string, assign_int set_maxIdleTime);
      ("connectionTimeOut"%string, assign_int set_connectionTimeout) ].

(** The body of the while loop, lines 117-126. *)
Definition configure_line (line : string) : M unit :=
  let iss := open_stream line in
  let '(iss1, key, ok1) := getline iss "="%char in
  if ok1 then
    let '(_, value, ok2) := getline iss1 newline in
    if ok2 then
      match configMap !! key with
      | Some handler => handler value
      | None => ret tt
      end
    else ret tt
  else ret tt.

(** [while (std::getline(file, line)) ...]; the result is [false] when
    the fuel ends before the stream does. *)
Fixpoint load_loop (fuel : nat) (file : istream) : M bool :=
  match fuel with
  | O => ret false
  | S fuel' =>
      let '(file', line, ok) := getline file newline in
      if ok then configure_line line ;; load_loop fuel' file'
      else ret true
  end.

(** Every turn of the loop but the last consumes a character or reaches
    the end of the file, so this fuel is enough ([load_loop_total]). *)
Definition load_fuel (content : string) : nat := S (S (String.length content)).

(** [ini] is the content of mysql.ini, [None] when it cannot be opened. *)
Definition loadConfigFile (ini : option string) : M bool :=
  match ini with
  | None => LOG no_file_msg ;; ret false
  | Some content =>
      load_loop (load_fuel content) (open_stream content) ;;
      ret true
  end.

(** ** The constructor *)

(** Lines 144-148, also lines 174-178 of the producer. *)
Definition create_connection : M unit :=
  let* p := new_Connection in
  let* r := connect p in
  let* p := refreshAliveTime (snd r) in
  que_push p ;;
  cnt_incr.

(** [for (int i = 0; i < _initSize; ++i)] with [n] turns left. *)
Fixpoint create_initial (n : nat) : M unit :=
  match n with
  | O => ret tt
  | S n' => create_connection ;; create_initial n'
  end.

(** The result tells whether the producer and the scanner were started. *)
Definition ConnectionPool_ctor (ini : option string) : M bool :=
  let* loaded := loadConfigFile ini in
  if negb loaded then ret false
  else
    let* n := get (fun w => Z.to_nat (_initSize (pool w))) in
    create_initial n ;;
    ret true.

(** The pool is a function-local static (line 22): its members are
    zero-initialised before the constructor runs. *)
Definition zero_pool : ConnectionPool :=
  mkPool EmptyString 0 EmptyString EmptyString EmptyString 0 0 0 0 [] 0.

Definition fresh_world (t0 : Z) : World :=
  {| pool := zero_pool; now := t0; next_id := O; leased := []; trace := [] |}.

(** ** The producer *)

Inductive task_status : Type :=
| Waiting      (* blocked in cv.wait, nothing done *)
| Iterated.    (* one turn of the for (;;) loop completed *)

(** One turn of the producer from the point where it holds the lock at
    the head of [while (!_connectionQue.empty())]: line 165 at the start
    of a turn, line 168 after a wake-up. *)
Definition produceConnectionTask_iter : M task_status :=
  let* e := que_empty in
  if negb e then ret Waiting
  else
    (let* c := get cnt in
     let* m := get (fun w => _maxSize (pool w)) in
     if c <? m then create_connection else ret tt) ;;
    notify_all ;;
    ret Iterated.

(** ** The scanner *)

(** [_maxIdleTime * 1000] in [int] arithmetic. *)
Definition idle_threshold (p : ConnectionPool) : Z := wrap_int (_maxIdleTime p * 1000).

(** [while (_connectionCnt > _initSize)], lines 196-209; the result is
    [false] when the fuel ends before the loop does. *)
Fixpoint scanner_loop (fuel : nat) : M bool :=
  match fuel with
  | O => ret false
  | S fuel' =>
      let* c := get cnt in
      let* i := get (fun w => _initSize (pool w)) in
      if c >? i then
        let* p := que_front in
        let* idle := getAliveeTime p in
        let* thr := get (fun w => idle_threshold (pool w)) in
        if idle >=? thr then
          que_pop ;;
          cnt_decr ;;
          delete_Connection p ;;
          scanner_loop fuel'
        else ret true
      else ret true
  end.

(** One scan, from taking the lock (line 195) to the end of the loop.
    Every turn that goes on pops an entry, so one more turn than the
    queue is long is enough ([scanner_loop_total]). *)
Definition scannerConnectionTask_scan : M unit :=
  let* n := get (fun w => length (que w)) in
  scanner_loop (S n) ;;
  ret tt.

(** ** getConnection and the deleter of its shared_ptr *)

Inductive cv_status : Type :=
| no_timeout
| timeout.

(** [cv.wait_for(lock, rel_time)]: the lock is released, the rest of the
    system runs ([env], the passing of time included), the lock is taken
    again; the status tells whether [rel_time] had passed by then. *)
Definition wait_for (rel_time : Z) (env : World -> World) : M cv_status :=
  fun w =>
    let w' := env w in
    Normal (if now w' - now w <? rel_time then no_timeout else timeout) w'.

(** Lines 237-249: wrap the front entry in a shared_ptr, pop, broadcast. *)
Definition getConnection_take : M Connection :=
  let* p := que_front in
  modify (fun w => set_leased (leased w ++ [p]) w) ;;
  que_pop ;;
  notify_all ;;
  ret p.

(** Lines 225-226. *)
Definition getConnection_timeout : M unit := LOG timeout_msg.

Inductive get_result : Type :=
| Returned (sp : option Connection)    (* [None] is the null pointer *)
| StillWaiting.                        (* blocked in cv.wait_for *)

(** [envs] lists what the rest of the system does during the successive
    waits of this call. *)
Fixpoint getConnection (envs : list (World -> World)) : M get_result :=
  let* e := que_empty in
  if e then
    match envs with
    | [] => ret StillWaiting
    | env :: envs' =>
        let* t := get (fun w => _connectionTimeout (pool w)) in
        let* st := wait_for t env in
        match st with
        | timeout =>
            let* e' := que_empty in
            if e' then getConnection_timeout ;; ret (Returned None)
            else getConnection envs'
        | no_timeout => getConnection envs'
        end
    end
  else
    let* p := getConnection_take in
    ret (Returned (Some p)).

Fixpoint drop_lease (p : Connection) (l : list Connection) : list Connection :=
  match l with
  | [] => []
  | x :: l' => if decide (x = p) then l' else x :: drop_lease p l'
  end.

(** The deleter, lines 238-244, run when the last reference to the
    handle of [pcon] goes away. *)
Definition release (pcon : Connection) : M unit :=
  modify (fun w => set_leased (drop_lease pcon (leased w)) w) ;;
  let* p := refreshAliveTime pcon in
  que_push p.

(** ** The system: interleaved critical sections *)

Inductive step : World -> World -> Prop :=
| step_tick w d :
    0 <= d -> step w (tick d w)
| step_produce w w' :
    produceConnectionTask_iter w = Normal Iterated w' -> step w w'
| step_scan w w' :
    scannerConnectionTask_scan w = Normal tt w' -> step w w'
| step_take w p w' :
    que w <> [] -> getConnection_take w = Normal p w' -> step w w'
| step_timeout w w' :
    que w = [] -> getConnection_timeout w = Normal tt w' -> step w w'
| step_release w p w' :
    p ∈ leased w -> release p w = Normal tt w' -> step w w'.

(** The states of a pool whose constructor read [ini] at time [t0] and
    started the background tasks. *)
Definition reachable (ini : string) (t0 : Z) (w : World) : Prop :=
  exists w0, ConnectionPool_ctor (Some ini) (fresh_world t0) = Normal true w0 /\ rtc step w0 w.

End Pool.

(** * Auxiliary notions for the statements *)

(** What is left of a stream for [getline] to succeed on. *)
Definition stream_measure (ins : istream) : nat :=
  if eofbit ins || failbit ins then O else S (String.length (rdbuf ins)).

(** Nothing but the configuration members differs. *)
Definition config_only (w w' : World) : Prop :=
  que w' = que w /\ cnt w' = cnt w /\ now w' = now w /\ next_id w' = next_id w /\
  leased w' = leased w /\ trace w' = trace w.

(** The idle duration of [p], read in [w], has reached the threshold of
    line 199. *)
Definition stale (w : World) (p : Connection) : Prop :=
  idle_threshold (pool w) <= now w - _alivetime p.

(** What the scanner does to one entry, lines 201-203. *)
Definition evict_events (p : Connection) : list Event :=
  [EvPop (conn_id p); EvCntDecr; EvDelete (conn_id p)].

(** [w'] is [w] with the entries [evicted] taken from the front of the
    queue, counted off and destroyed, and nothing else changed. *)
Definition evicts (w : World) (evicted : list Connection) (w' : World) : Prop :=
  que w = evicted ++ que w' /\
  cnt w' = cnt w - Z.of_nat (length evicted) /\
  trace w' = trace w ++ flat_map evict_events evicted /\
  same_config (pool w) (pool w') /\
  now w' = now w /\ next_id w' = next_id w /\ leased w' = leased w.

(** The world after lines 201-203 have run on the front entry [p]. *)
Definition evicted_front (w : World) (p : Connection) (q : list Connection) : World :=
  {| pool := set_cnt (wrap_int (cnt w - 1)) (set_que q (pool w));
     now := now w; next_id := next_id w; leased := leased w;
     trace := ((trace w ++ [EvPop (conn_id p)]) ++ [EvCntDecr]) ++ [EvDelete (conn_id p)] |}.

(** The connection that lines 174-176 (and 144-146) build in [w]. *)
Definition fresh_connection (connect_ok : nat -> bool) (w : World) : Connection :=
  {| conn_id := next_id w; conn_connected := connect_ok (next_id w); _alivetime := now w |}.

Definition creation_events (connect_ok : nat -> bool) (w : World) : list Event :=
  [EvNew (next_id w); EvConnect (next_id w) (connect_ok (next_id w));
   EvRefresh (next_id w) (now w); EvPush (next_id w); EvCntIncr].

(** The world after lines 174-178. *)
Definition created (connect_ok : nat -> bool) (w : World) : World :=
  {| pool := set_cnt (wrap_int (cnt w + 1))
               (set_que (que w ++ [fresh_connection connect_ok w]) (pool w));
     now := now w; next_id := S (next_id w); leased := leased w;
     trace := trace w ++ creation_events connect_ok w |}.

(** The world after lines 237-247 have handed out the front entry [p]. *)
Definition taken (w : World) (p : Connection) (q : list Connection) : World :=
  {| pool := set_que q (pool w); now := now w; next_id := next_id w;
     leased := leased w ++ [p];
     trace := trace w ++ [EvPop (conn_id p); EvNotifyAll] |}.

(** [pcon] as the deleter puts it back in [w]. *)
Definition restamped (w : World) (pcon : Connection) : Connection :=
  {| conn_id := conn_id pcon; conn_connected := conn_connected pcon; _alivetime := now w |}.

(** The world after the deleter has run on [pcon]. *)
Definition released (w : World) (pcon : Connection) : World :=
  {| pool := set_que (que w ++ [restamped w pcon]) (pool w);
     now := now w; next_id := next_id w;
     leased := drop_lease pcon (leased w);
     trace := trace w ++ [EvRefresh (conn_id pcon) (now w); EvPush (conn_id pcon)] |}.

(** No queued or leased connection carries a time stamp from the future. *)
Definition stamps_past (w : World) : Prop :=
  forall c, c ∈ que w ++ leased w -> _alivetime c <= now w.

(** ** A small pool to run the code on *)

Definition nl : string := String newline EmptyString.

(** [initSize=1], [maxSize=2], one second of idle time, a timeout of
    100 ms, one key per line. *)
Definition ex_ini : string :=
  "initSize=1" +:+ nl +:+ "maxSize=2" +:+ nl +:+ "maxIdleTime=1" +:+ nl +:+
  "connectionTimeOut=100".

Definition ex_port_cast (z : Z) : Z := z mod 65536.

Definition all_accept (id : nat) : bool := true.
Definition all_refuse (id : nat) : bool := false.

(** The pool right after its constructor. *)
Definition ex_started : World :=
  Eval vm_compute in
    world_of (ConnectionPool_ctor ex_port_cast all_accept (Some ex_ini) (fresh_world 0)).

(** One handle is out, the queue is empty, the counter is below [_maxSize]. *)
Definition ex_one_leased : World :=
  Eval vm_compute in world_of (getConnection [] ex_started).

(** The producer has replaced the connection that was taken. *)
Definition ex_refilled : World :=
  Eval vm_compute in world_of (produceConnectionTask_iter all_accept ex_one_leased).

(** Both connections are out: the queue is empty and the counter is at
    [_maxSize]. *)
Definition ex_exhausted : World :=
  Eval vm_compute in world_of (getConnection [] ex_refilled).

Definition ex_conn0 : Connection :=
  {| conn_id := 0; conn_connected := true; _alivetime := 0 |}.
Definition ex_conn1 : Connection :=
  {| conn_id := 1; conn_connected := true; _alivetime := 0 |}.

(** Both handles were released, five seconds apart from the start and
    from each other, and a further two seconds have passed. *)
Definition ex_idle : World :=
  Eval vm_compute in
    tick 2000 (world_of (release ex_conn1
      (tick 5000 (world_of (release ex_conn0 (tick 5000 ex_exhausted)))))).

(** ** Events a section adds, and broadcasts after mutations *)

(** The events that running [m] in [w] appends to the trace. *)
Definition emitted {A} (m : M A) (w : World) : list Event :=
  drop (length (trace w)) (trace (world_of (m w))).

(** A write to the queue or to the counter. *)
Definition is_mutation (e : Event) : bool :=
  match e with
  | EvPush _ | EvPop _ | EvCntIncr | EvCntDecr => true
  | _ => false
  end.

Definition is_broadcast (e : Event) : bool :=
  match e with
  | EvNotifyAll => true
  | _ => false
  end.

(** Every mutation in [tr] has a broadcast somewhere behind it. *)
Fixpoint broadcast_follows (tr : list Event) : bool :=
  match tr with
  | [] => true
  | e :: tr' => (negb (is_mutation e) || existsb is_broadcast tr') && broadcast_follows tr'
  end.

(** The rest of the system running during the successive waits. *)
Definition interfered (envs : list (World -> World)) (w : World) : World :=
  foldl (fun x env => env x) w envs.

(** What a waiting consumer sees of the producer: [d] ms pass, then the
    producer runs one turn of its loop. *)
Definition notified_by_producer (connect_ok : nat -> bool) (d : Z) (w : World) : World :=
  world_of (produceConnectionTask_iter connect_ok (tick d w)).

(** [c] occurs in [s]. *)
Fixpoint has_char (c : ascii) (s : string) : bool :=
  match s with
  | EmptyString => false
  | String x s' => Ascii.eqb x c || has_char c s'
  end.

(** ** Notions for the invariants of the running pool *)

(** The counter is the number of connections in the queue and in the
    hands of callers. *)
Definition conserved (w : World) : Prop :=
  cnt w = Z.of_nat (length (que w) + length (leased w)).

(** No connection sits twice in the queue, twice in a caller's hands, or
    in both places, and every identity was handed out by [new]. *)
Definition ids_distinct (w : World) : Prop :=
  NoDup (conn_id <$> (que w ++ leased w)) /\
  forall c, c ∈ que w ++ leased w -> (conn_id c < next_id w)%nat.

(** [a] has been idle at least as long as [b]. *)
Definition stamp_le (a b : Connection) : Prop := _alivetime a <= _alivetime b.

(** The [n] connections the constructor creates at time [t0]. *)
Definition initial_connections (connect_ok : nat -> bool) (t0 : Z) (first n : nat)
    : list Connection :=
  (fun i => {| conn_id := i; conn_connected := connect_ok i; _alivetime := t0 |}) <$> seq first n.

(** The example's configuration, loaded. *)
Definition ex_loaded : World :=
  Eval vm_compute in
    world_of (loadConfigFile ex_port_cast (Some ex_ini) (fresh_world 0)).

(** The idle pool of the example after one scan. *)
Definition ex_scanned : World :=
  Eval vm_compute in world_of (scannerConnectionTask_scan ex_idle).

(** During a wait of 100 ms the first handle of the example is released. *)
Definition ex_release_during_wait (w : World) : World :=
  world_of (release ex_conn0 (tick 100 w)).

(** ** A pool with an idle time beyond the range of milliseconds in an int *)




(** ** Waits of getConnection *)

(** Each of the waits [envs], one after the other from [w], ends before
    the timeout with the queue still empty. *)
Fixpoint woken_early (envs : list (World -> World)) (w : World) : Prop :=
  match envs with
  | [] => True
  | env :: envs' =>
      que (env w) = [] /\
      now (env w) - now w < _connectionTimeout (pool w) /\
      woken_early envs' (env w)
  end.

(** The producer broadcasts 60 ms and 100 ms into a wait, and the waiting
    caller gets the lock back only after the second broadcast. *)
Definition ex_late_wake (w : World) : World :=
  notified_by_producer all_accept 40 (notified_by_producer all_accept 60 w).

(** ** A pool of up to three connections *)

Definition ex_ini3 : string :=
  "initSize=1" +:+ nl +:+ "maxSize=3" +:+ nl +:+ "maxIdleTime=1" +:+ nl +:+
  "connectionTimeOut=100".

Definition ex_conn2 : Connection :=
  {| conn_id := 2; conn_connected := true; _alivetime := 0 |}.

Definition ex3_started : World :=
  Eval vm_compute in
    world_of (ConnectionPool_ctor ex_port_cast all_accept (Some ex_ini3) (fresh_world 0)).

Definition ex3_take0 : World :=
  Eval vm_compute in world_of (getConnection [] ex3_started).
Definition ex3_made1 : World :=
  Eval vm_compute in world_of (produceConnectionTask_iter all_accept ex3_take0).
Definition ex3_take1 : World :=
  Eval vm_compute in world_of (getConnection [] ex3_made1).
Definition ex3_made2 : World :=
  Eval vm_compute in world_of (produceConnectionTask_iter all_accept ex3_take1).

(** Three handles are out. *)
Definition ex3_leased : World :=
  Eval vm_compute in world_of (getConnection [] ex3_made2).

(** The first handle came back after 1000 ms. *)
Definition ex3_back0 : World :=
  Eval vm_compute in world_of (release ex_conn0 (tick 1000 ex3_leased)).

(** The second handle came back after 2500 ms. *)
Definition ex3_back1 : World :=
  Eval vm_compute in world_of (release ex_conn1 (tick 1500 ex3_back0)).

(** The third handle came back after 2500 ms too, and it is now 3100 ms:
    the first connection has been idle for 2100 ms, the other two for
    600 ms. *)
Definition ex3_mixed : World :=
  Eval vm_compute in tick 600 (world_of (release ex_conn2 ex3_back1)).

Definition ex3_scanned : World :=
  Eval vm_compute in world_of (scannerConnectionTask_scan ex3_mixed).

(** * Properties *)

Ltac unfold_M :=
  unfold bind, ret, get, modify, throw, undefined, update, LOG, notify_all,
    que_empty, que_front, que_pop, que_push, cnt_incr, cnt_decr, new_Connection,
    refreshAliveTime, getAliveeTime, delete_Connection, connect, wait_for in *.

Arguments wrap_int : simpl never.

Ltac destruct_world w :=
  let p := fresh "p" in
  destruct w as [p ? ? ? ?]; destruct p as [? ? ? ? ? ? ? ? ? ? ?].

(** ** Machine integers *)

Lemma wrap_int_id (z : Z) : Int_ok z -> wrap_int z = z.
Proof.
  unfold Int_ok, INT_MIN, INT_MAX, wrap_int. intros H.
  rewrite Z.mod_small; lia.
Qed.

Lemma in_int_ok (z : Z) : in_int z = true -> Int_ok z.
Proof. unfold in_int, Int_ok. intros H. apply andb_prop in H as [H1 H2]. lia. Qed.

Lemma stoi_in_int (s : string) (n : Z) : stoi s = Parsed n -> Int_ok n.
Proof.
  unfold stoi. destruct (strip_sign (skip_space s)) as [neg body].
  destruct (digits_value body None) as [v|]; [|discriminate].
  destruct (in_int (if neg then - v else v)) eqn:E; [|discriminate].
  intros [= <-]. by apply in_int_ok.
Qed.

(** ** The configuration loop ends *)

Lemma extract_until_rest (delim : ascii) (s str rest : string) :
  extract_until delim s = (str, Some rest) ->
  (String.length rest < String.length s)%nat.
Proof.
  revert str. induction s as [|c s IH]; intros str; simpl; [discriminate|].
  destruct (Ascii.eqb c delim).
  - intros [= _ <-]. lia.
  - destruct (extract_until delim s) as [str' rest'] eqn:E.
    intros [= _ ->]. specialize (IH _ eq_refl). lia.
Qed.

Lemma getline_measure (ins ins' : istream) (delim : ascii) (str : string) :
  getline ins delim = (ins', str, true) ->
  (stream_measure ins' < stream_measure ins)%nat.
Proof.
  unfold getline, stream_measure.
  destruct (eofbit ins || failbit ins); [discriminate|].
  destruct (extract_until delim (rdbuf ins)) as [s [rest|]] eqn:E.
  - intros [= <- _]. simpl. apply extract_until_rest in E. lia.
  - intros [= <- _ _]. simpl. lia.
Qed.

Section PoolFacts.

Variable port_cast : Z -> Z.
Variable connect_ok : nat -> bool.

Lemma load_loop_fuel (fuel : nat) (file : istream) (w w' : World) (b : bool) :
  (stream_measure file < fuel)%nat ->
  load_loop port_cast fuel file w = Normal b w' -> b = true.
Proof.
  revert file w. induction fuel as [|fuel IH]; intros file w Hm; [lia|].
  simpl. destruct (getline file newline) as [[file' line] ok] eqn:G.
  destruct ok.
  - apply getline_measure in G. unfold bind at 1.
    destruct (configure_line port_cast line w) as [[] w1|e w1|w1]; try discriminate.
    apply IH. lia.
  - unfold ret. by intros [= <- _].
Qed.

(** The loop over the lines of the file never stops for lack of fuel. *)
Lemma load_loop_total (content : string) (w w' : World) (b : bool) :
  load_loop port_cast (load_fuel content) (open_stream content) w = Normal b w' -> b = true.
Proof.
  apply load_loop_fuel. unfold load_fuel, stream_measure, open_stream. simpl. lia.
Qed.

End PoolFacts.

(** ** The scanner *)

Lemma same_config_refl (p : ConnectionPool) : same_config p p.
Proof. by repeat split. Qed.

Lemma same_config_trans (p q r : ConnectionPool) :
  same_config p q -> same_config q r -> same_config p r.
Proof. unfold same_config. intros H1 H2. intuition congruence. Qed.

Lemma same_config_threshold (p q : ConnectionPool) :
  same_config p q -> idle_threshold p = idle_threshold q.
Proof. unfold same_config, idle_threshold. intros H. by replace (_maxIdleTime q) with (_maxIdleTime p) by intuition. Qed.

Lemma scanner_loop_unfold (fuel : nat) (w : World) :
  scanner_loop (S fuel) w =
  if cnt w >? _initSize (pool w) then
    match que w with
    | [] => Undefined w
    | p :: q =>
        if now w - _alivetime p >=? idle_threshold (pool w)
        then scanner_loop fuel (evicted_front w p q)
        else Normal true w
    end
  else Normal true w.
Proof.
  simpl. unfold_M. simpl.
  destruct (cnt w >? _initSize (pool w)); [|done].
  destruct (que w) as [|p q] eqn:E; [done|]. simpl.
  destruct (now w - _alivetime p >=? idle_threshold (pool w)); [|done].
  rewrite E. done.
Qed.

Lemma scanner_loop_spec (fuel : nat) (w : World) :
  ints_ok (pool w) ->
  (length (que w) < fuel)%nat ->
  exists evicted,
    let o := scanner_loop fuel w in
    let w' := world_of o in
    evicts w evicted w' /\
    Forall (stale w) evicted /\
    (evicted = [] \/ _initSize (pool w) <= cnt w') /\
    ((o = Normal true w' /\
      (cnt w' <= _initSize (pool w) \/
       exists p rest, que w' = p :: rest /\ ~ stale w p)) \/
     (o = Undefined w' /\ que w' = [] /\ _initSize (pool w) < cnt w')).
Proof.
  revert w. induction fuel as [|fuel IH]; intros w Hints Hlen; [lia|].
  rewrite scanner_loop_unfold.
  destruct (Z.gtb_spec (cnt w) (_initSize (pool w))) as [Hc|Hc].
  2:{ exists []. simpl.
      split; [|split; [constructor|split; [by left|left; split; [done|left; lia]]]].
      unfold evicts. simpl. rewrite app_nil_r.
      repeat split; try done. lia. }
  destruct (que w) as [|p q] eqn:Hq.
  { exists []. simpl. split; [|split; [constructor|split; [by left|right; by rewrite Hq]]].
    unfold evicts. simpl. rewrite app_nil_r, Hq.
    repeat split; try done. lia. }
  destruct (Z.geb_spec (now w - _alivetime p) (idle_threshold (pool w))) as [Hst|Hst].
  2:{ exists []. simpl.
      split; [|split; [constructor|split; [by left|left; split; [done|right]]]].
      - unfold evicts. simpl. rewrite app_nil_r, Hq. repeat split; try done. lia.
      - exists p, q. split; [done|]. unfold stale. lia. }
  assert (Hstale : stale w p) by (unfold stale; lia).
  set (w1 := evicted_front w p q).
  assert (Hcnt1 : cnt w1 = cnt w - 1).
  { subst w1. unfold cnt. simpl. apply wrap_int_id.
    destruct Hints as (Hi & _ & _ & _ & Hn). unfold cnt, Int_ok in *. lia. }
  assert (Hcfg1 : same_config (pool w) (pool w1)) by (subst w1; by repeat split).
  assert (Hq1 : que w1 = q) by done.
  assert (Htr1 : trace w1 = trace w ++ evict_events p).
  { subst w1. simpl. by rewrite <- !app_assoc. }
  assert (Hints1 : ints_ok (pool w1)).
  { destruct Hints as (Hi & Hm & Ht & Hto & Hn).
    destruct Hcfg1 as (_ & _ & _ & _ & _ & E1 & E2 & E3 & E4).
    unfold ints_ok. rewrite <- E1, <- E2, <- E3, <- E4.
    repeat split; try (by apply Hi || by apply Hm || by apply Ht || by apply Hto).
    - fold (cnt w1). rewrite Hcnt1. unfold cnt, Int_ok in *. lia.
    - fold (cnt w1). rewrite Hcnt1. unfold cnt, Int_ok in *. lia. }
  destruct (IH w1 Hints1) as (ev & Hev & Hall & Hfloor & Hend).
  { rewrite Hq1. simpl in Hlen. lia. }
  exists (p :: ev). simpl.
  set (o := scanner_loop fuel w1) in *. set (w' := world_of o) in *.
  simpl in Hev, Hend, Hfloor.
  assert (Hsame : forall c, stale w1 c <-> stale w c).
  { intros c. unfold stale. rewrite <- (same_config_threshold _ _ Hcfg1). by subst w1. }
  split; [|split; [|split]].
  - destruct Hev as (E1 & E2 & E3 & E4 & E5 & E6 & E7).
    rewrite Hq1 in E1.
    pose proof (same_config_trans _ _ _ Hcfg1 E4) as Hcfg.
    unfold evicts. rewrite E2, E3, E5, E6, E7, Hcnt1, Htr1.
    split; [by rewrite Hq, E1|]. split; [simpl length; lia|].
    split; [by rewrite <- app_assoc|]. by split.
  - constructor; [done|]. eapply Forall_impl; [exact Hall|]. intros c. apply Hsame.
  - right. destruct Hfloor as [->|Hfloor]; [|done].
    destruct Hev as (_ & E2 & _). rewrite E2, Hcnt1. simpl. lia.
  - destruct Hend as [[Ho Hstop]|Hundef]; [left|right; done].
    split; [done|]. destruct Hstop as [Hle|(c & rest & Hc1 & Hc2)]; [by left|right].
    exists c, rest. split; [done|]. by rewrite <- Hsame.
Qed.

(** One more turn than the queue is long is enough for the loop. *)
Lemma scanner_loop_total (w w' : World) (b : bool) :
  ints_ok (pool w) ->
  scanner_loop (S (length (que w))) w = Normal b w' -> b = true.
Proof.
  intros Hints H.
  destruct (scanner_loop_spec (S (length (que w))) w Hints) as (ev & _ & _ & _ & Hend); [lia|].
  cbv zeta in Hend. rewrite H in Hend.
  destruct Hend as [[Ho _]|[Ho _]]; [by injection Ho|discriminate].
Qed.

Lemma scan_unfold (w : World) :
  scannerConnectionTask_scan w =
  match scanner_loop (S (length (que w))) w with
  | Normal _ w' => Normal tt w'
  | Threw e w' => Threw e w'
  | Undefined w' => Undefined w'
  end.
Proof. unfold scannerConnectionTask_scan. unfold_M. by destruct (scanner_loop _ w). Qed.

(** With the counter above [_initSize] and nothing in the queue the scan
    goes straight to the front of the empty queue. *)
Lemma scan_front_of_empty (w : World) :
  que w = [] ->
  _initSize (pool w) < cnt w ->
  scannerConnectionTask_scan w = Undefined w.
Proof.
  intros Hq Hc. rewrite scan_unfold, scanner_loop_unfold, Hq.
  by destruct (Z.gtb_spec (cnt w) (_initSize (pool w))) as [_|Hle]; [|lia].
Qed.

(** One scan: what it evicts, where it stops. *)
Lemma scan_spec (w : World) :
  ints_ok (pool w) ->
  exists evicted,
    let o := scannerConnectionTask_scan w in
    let w' := world_of o in
    evicts w evicted w' /\
    Forall (stale w) evicted /\
    (evicted = [] \/ _initSize (pool w) <= cnt w') /\
    (_initSize (pool w) <= cnt w -> _initSize (pool w) <= cnt w') /\
    ((o = Normal tt w' /\
      (cnt w' <= _initSize (pool w) \/
       exists p rest, que w' = p :: rest /\ ~ stale w p)) \/
     (o = Undefined w' /\ que w' = [] /\ _initSize (pool w) < cnt w')) /\
    (Int_ok (_maxIdleTime (pool w) * 1000) ->
     forall p, stale w p <-> _maxIdleTime (pool w) * 1000 <= now w - _alivetime p).
Proof.
  intros Hints.
  destruct (scanner_loop_spec (S (length (que w))) w Hints) as (ev & Hev & Hall & Hfloor & Hend);
    [lia|].
  exists ev. cbv zeta in *. rewrite scan_unfold.
  assert (Hw : world_of (match scanner_loop (S (length (que w))) w with
                         | Normal _ w' => Normal tt w'
                         | Threw e w' => Threw e w'
                         | Undefined w' => Undefined w'
                         end) = world_of (scanner_loop (S (length (que w))) w)).
  { by destruct (scanner_loop _ w). }
  rewrite Hw. split; [done|]. split; [done|]. split; [done|]. split.
  { intros Hle. destruct Hfloor as [->|Hfloor]; [|done].
    destruct Hev as (_ & E2 & _). rewrite E2. simpl length. lia. }
  split.
  - destruct Hend as [[Ho Hstop]|[Ho Hstop]]; [left|right]; rewrite Ho; by split.
  - intros Hrange p. unfold stale, idle_threshold. by rewrite wrap_int_id.
Qed.


(** ** What each critical section does *)

Section Sections.

Variable port_cast : Z -> Z.
Variable connect_ok : nat -> bool.

Lemma create_connection_eq (w : World) :
  create_connection connect_ok w = Normal tt (created connect_ok w).
Proof.
  destruct_world w. cbv -[wrap_int Z.add app]. do 2 f_equal. by rewrite <- !app_assoc.
Qed.

Lemma produce_eq (w : World) :
  produceConnectionTask_iter connect_ok w =
  match que w with
  | [] => Normal Iterated
            (emit EvNotifyAll (if cnt w <? _maxSize (pool w) then created connect_ok w else w))
  | _ :: _ => Normal Waiting w
  end.
Proof.
  unfold produceConnectionTask_iter. unfold bind at 1. unfold que_empty, get at 1.
  destruct (que w) as [|p q] eqn:E; [|done]. simpl.
  unfold bind at 1. unfold bind at 1. unfold get at 1. unfold bind at 1. unfold get at 1.
  destruct (cnt w <? _maxSize (pool w)).
  - by rewrite create_connection_eq.
  - done.
Qed.

Lemma take_eq (w : World) :
  getConnection_take w =
  match que w with
  | [] => Undefined w
  | p :: q => Normal p (taken w p q)
  end.
Proof.
  destruct w as [[ip port usr pwd db isz msz idle tmo [|p q] n] t nid ls tr]; cbv -[app]; [done|].
  do 2 f_equal. by rewrite <- !app_assoc.
Qed.

Lemma release_eq (pcon : Connection) (w : World) :
  release pcon w = Normal tt (released w pcon).
Proof.
  destruct_world w. cbv -[app drop_lease]. do 2 f_equal. by rewrite <- !app_assoc.
Qed.

(** ** Invariants of the interleaving *)

Lemma elem_of_drop_lease (p c : Connection) (l : list Connection) :
  c ∈ drop_lease p l -> c ∈ l.
Proof.
  induction l as [|x l IH]; simpl; [done|].
  destruct (decide (x = p)); rewrite !elem_of_cons; intuition.
Qed.

Lemma step_invariants (w w' : World) :
  step connect_ok w w' ->
  ints_ok (pool w) ->
  ints_ok (pool w') /\
  same_config (pool w) (pool w') /\
  (stamps_past w -> stamps_past w') /\
  now w <= now w' /\
  (_initSize (pool w) <= cnt w <= _maxSize (pool w) ->
   _initSize (pool w) <= cnt w' <= _maxSize (pool w)).
Proof.
  intros Hstep Hints.
  destruct Hstep as [w d Hd|w w' H|w w' H|w p w' Hne H|w w' He H|w p w' Hin H].
  - (* time passes *)
    split; [done|]. split; [apply same_config_refl|]. split; [|simpl; split; [lia|done]].
    intros Hs c Hc. specialize (Hs c Hc). simpl. lia.
  - (* the producer *)
    rewrite produce_eq in H. destruct (que w) as [|p q] eqn:Hq; [|discriminate].
    injection H as <-.
    destruct (Z.ltb_spec (cnt w) (_maxSize (pool w))) as [Hlt|Hge].
    + assert (Hc : wrap_int (cnt w + 1) = cnt w + 1).
      { apply wrap_int_id. destruct Hints as (_ & Hm & _ & _ & Hn).
        unfold cnt, Int_ok in *. lia. }
      split; [|split; [by repeat split|split; [|split]]].
      * destruct Hints as (Hi & Hm & Ht & Hto & Hn). repeat split; try apply Hi;
          try apply Hm; try apply Ht; try apply Hto; simpl; unfold cnt in *; rewrite Hc;
          unfold Int_ok in *; lia.
      * intros Hs c. unfold que. simpl. fold (que w). rewrite Hq. simpl.
        rewrite elem_of_cons. intros [->|Hc']; [simpl; lia|].
        apply Hs. rewrite Hq. done.
      * simpl. lia.
      * intros Hb. simpl.
        change (_connectionCnt (pool (created connect_ok w))) with (wrap_int (cnt w + 1)).
        change (cnt (emit EvNotifyAll (created connect_ok w))) with (wrap_int (cnt w + 1)).
        rewrite Hc. lia.
    + split; [done|]. split; [apply same_config_refl|]. split; [done|]. split; [simpl; lia|done].
  - (* the scanner *)
    destruct (scan_spec w Hints) as (ev & Hev & _ & Hfloor & _ & _).
    cbv zeta in *. rewrite H in *. simpl in Hev, Hfloor.
    destruct Hev as (E1 & E2 & E3 & E4 & E5 & E6 & E7).
    split; [|split; [done|split; [|split]]].
    + destruct Hints as (Hi & Hm & Ht & Hto & Hn).
      destruct E4 as (_ & _ & _ & _ & _ & C1 & C2 & C3 & C4).
      assert (Hn' : Int_ok (cnt w')).
      { fold (cnt w) in Hn. unfold Int_ok in *. rewrite E2.
        destruct Hfloor as [->|Hfloor]; [simpl; lia|]. rewrite E2 in Hfloor. lia. }
      unfold ints_ok. rewrite <- C1, <- C2, <- C3, <- C4. by repeat (split; [done|]).
    + intros Hs c Hc. rewrite E5. apply Hs. rewrite E1, <- E7.
      rewrite !elem_of_app in *. intuition.
    + lia.
    + intros Hb. split; [|lia].
      destruct Hfloor as [->|Hfloor]; [rewrite E2; simpl; lia|done].
  - (* a consumer takes the front entry *)
    rewrite take_eq in H. destruct (que w) as [|c q] eqn:Hq; [done|].
    injection H as <- <-.
    split; [done|]. split; [by repeat split|]. split; [|split; [simpl; lia|done]].
    intros Hs x. unfold que. simpl. intros Hx. apply Hs. rewrite Hq.
    rewrite !elem_of_app, !elem_of_cons in *. rewrite elem_of_nil in Hx. intuition.
  - (* a consumer gives up *)
    injection H as <-.
    split; [done|]. split; [apply same_config_refl|]. split; [done|]. split; [simpl; lia|done].
  - (* a handle is released *)
    rewrite release_eq in H. injection H as <-.
    split; [done|]. split; [by repeat split|]. split; [|split; [simpl; lia|done]].
    intros Hs x. unfold que. simpl. fold (que w).
    rewrite !elem_of_app, elem_of_cons, elem_of_nil.
    intros [[Hx|[->|[]]]|Hx]; [apply Hs; rewrite elem_of_app; by left|simpl; lia|].
    apply Hs. rewrite elem_of_app. right. by eapply elem_of_drop_lease.
Qed.

End Sections.

(** ** The configuration file and the constructor *)

Section Construction.

Variable port_cast : Z -> Z.
Variable connect_ok : nat -> bool.

Lemma assign_int_inv (setter : Z -> ConnectionPool -> ConnectionPool)
    (value : string) (w w' : World) (u : unit) :
  assign_int setter value w = Normal u w' ->
  exists n, Int_ok n /\ w' = set_pool (setter n (pool w)) w.
Proof.
  unfold assign_int. destruct (stoi value) as [n|e] eqn:E; [|discriminate].
  intros [= _ <-]. exists n. split; [by eapply stoi_in_int|done].
Qed.

Lemma config_only_refl (w : World) : config_only w w.
Proof. by repeat split. Qed.

Lemma config_only_trans (w1 w2 w3 : World) :
  config_only w1 w2 -> config_only w2 w3 -> config_only w1 w3.
Proof. unfold config_only. intros H1 H2. intuition congruence. Qed.

Lemma configMap_handler_inv (key value : string) (h : string -> M unit)
    (w w' : World) (u : unit) :
  configMap port_cast !! key = Some h ->
  h value w = Normal u w' ->
  ints_ok (pool w) ->
  ints_ok (pool w') /\ config_only w w'.
Proof.
  intros Hk Hh Hints. unfold configMap in Hk.
  apply elem_of_list_to_map_2 in Hk.
  destruct Hints as (Hi & Hm & Ht & Hto & Hn).
  repeat (apply elem_of_cons in Hk as [Hk|Hk]); try (by apply elem_of_nil in Hk);
    injection Hk as _ ->;
    first [ apply assign_int_inv in Hh as (n & Hr & ->)
          | unfold update, modify in Hh; simplify_eq ];
    (split; [unfold ints_ok; simpl; tauto|by repeat split]).
Qed.

Lemma configure_line_inv (line : string) (w w' : World) (u : unit) :
  configure_line port_cast line w = Normal u w' ->
  ints_ok (pool w) ->
  ints_ok (pool w') /\ config_only w w'.
Proof.
  unfold configure_line.
  destruct (getline (open_stream line) "="%char) as [[iss1 key] ok1].
  destruct ok1; [|intros [= _ <-]; split; [done|apply config_only_refl]].
  destruct (getline iss1 newline) as [[iss2 value] ok2].
  destruct ok2; [|intros [= _ <-]; split; [done|apply config_only_refl]].
  destruct (configMap port_cast !! key) as [h|] eqn:Hk.
  - by apply (configMap_handler_inv key value h).
  - intros [= _ <-]; split; [done|apply config_only_refl].
Qed.

Lemma load_loop_inv (fuel : nat) (file : istream) (w w' : World) (b : bool) :
  load_loop port_cast fuel file w = Normal b w' ->
  ints_ok (pool w) ->
  ints_ok (pool w') /\ config_only w w'.
Proof.
  revert file w. induction fuel as [|fuel IH]; intros file w.
  - intros [= _ <-]. split; [done|apply config_only_refl].
  - simpl. destruct (getline file newline) as [[file' line] ok].
    destruct ok; [|intros [= _ <-]; split; [done|apply config_only_refl]].
    unfold bind at 1.
    destruct (configure_line port_cast line w) as [u w1|e w1|w1] eqn:El; try discriminate.
    intros Hl Hints.
    destruct (configure_line_inv _ _ _ _ El Hints) as [Hints1 Hc1].
    destruct (IH _ _ Hl Hints1) as [Hints' Hc'].
    split; [done|]. by eapply config_only_trans.
Qed.

Lemma create_initial_spec (n : nat) (w : World) :
  ints_ok (pool w) ->
  cnt w + Z.of_nat n <= INT_MAX ->
  exists w',
    create_initial connect_ok n w = Normal tt w' /\
    ints_ok (pool w') /\
    same_config (pool w) (pool w') /\
    cnt w' = cnt w + Z.of_nat n /\
    now w' = now w /\
    leased w' = leased w /\
    (stamps_past w -> stamps_past w') /\
    length (que w') = (length (que w) + n)%nat.
Proof.
  revert w. induction n as [|n IH]; intros w Hints Hmax.
  - exists w. simpl. unfold ret.
    split; [done|]. split; [done|]. split; [apply same_config_refl|].
    split; [lia|]. split; [done|]. split; [done|]. split; [done|]. by rewrite Nat.add_0_r.
  - simpl. unfold bind at 1. rewrite create_connection_eq.
    set (w1 := created connect_ok w).
    assert (Hc : cnt w1 = cnt w + 1).
    { change (cnt w1) with (wrap_int (cnt w + 1)). apply wrap_int_id.
      destruct Hints as (_ & _ & _ & _ & Hn). unfold cnt, Int_ok, INT_MAX in *. lia. }
    assert (Hints1 : ints_ok (pool w1)).
    { destruct Hints as (Hi & Hm & Ht & Hto & Hn).
      repeat (split; [done|]). fold (cnt w1). rewrite Hc.
      unfold cnt, Int_ok, INT_MAX in *. lia. }
    destruct (IH w1 Hints1) as (w' & Hrun & Hints' & Hcfg & Hcnt & Hnow & Hl & Hs & Hlen);
      [lia|].
    exists w'. split; [done|]. split; [done|].
    split; [eapply same_config_trans; [|exact Hcfg]; by repeat split|].
    split; [lia|]. split; [done|]. split; [done|]. split.
    + intros Hp. apply Hs. intros c. unfold w1, que. simpl. fold (que w).
      rewrite !elem_of_app, elem_of_cons, elem_of_nil.
      intros [[Hc'|[->|[]]]|Hc']; [|simpl; lia|]; apply Hp; rewrite elem_of_app; auto.
    + rewrite Hlen. change (que w1) with (que w ++ [fresh_connection connect_ok w]).
      rewrite length_app. simpl. lia.
Qed.

Lemma ctor_eq (ini : string) (w : World) :
  ConnectionPool_ctor port_cast connect_ok (Some ini) w =
  match load_loop port_cast (load_fuel ini) (open_stream ini) w with
  | Normal _ w1 =>
      match create_initial connect_ok (Z.to_nat (_initSize (pool w1))) w1 with
      | Normal _ w0 => Normal true w0
      | Threw e w0 => Threw e w0
      | Undefined w0 => Undefined w0
      end
  | Threw e w1 => Threw e w1
  | Undefined w1 => Undefined w1
  end.
Proof.
  unfold ConnectionPool_ctor, loadConfigFile. unfold_M.
  destruct (load_loop port_cast (load_fuel ini) (open_stream ini) w); [|done..].
  simpl. by destruct (create_initial _ _ _).
Qed.

Lemma ctor_spec (ini : string) (t0 : Z) (w0 : World) :
  ConnectionPool_ctor port_cast connect_ok (Some ini) (fresh_world t0) = Normal true w0 ->
  ints_ok (pool w0) /\
  cnt w0 = Z.max 0 (_initSize (pool w0)) /\
  stamps_past w0 /\
  leased w0 = [] /\
  now w0 = t0 /\
  length (que w0) = Z.to_nat (_initSize (pool w0)).
Proof.
  rewrite ctor_eq.
  destruct (load_loop port_cast (load_fuel ini) (open_stream ini) (fresh_world t0))
    as [b w1|e w1|w1] eqn:El; try discriminate.
  assert (H0 : ints_ok (pool (fresh_world t0))).
  { unfold ints_ok, Int_ok, INT_MIN, INT_MAX. simpl. lia. }
  destruct (load_loop_inv _ _ _ _ _ El H0) as [Hints1 (Hq & Hc & Hn & _ & Hl & _)].
  change (que (fresh_world t0)) with (@nil Connection) in Hq.
  change (cnt (fresh_world t0)) with 0 in Hc. simpl in Hn, Hl.
  destruct (create_initial_spec (Z.to_nat (_initSize (pool w1))) w1 Hints1)
    as (w' & Hrun & Hints' & Hcfg & Hcnt & Hnow & Hlea & Hs & Hlen).
  { rewrite Hc. destruct Hints1 as (Hi & _). unfold Int_ok, INT_MAX in *. lia. }
  rewrite Hrun. intros [= <-].
  assert (Ei : _initSize (pool w') = _initSize (pool w1)) by (symmetry; apply Hcfg).
  split; [done|]. rewrite Ei. split; [lia|]. split.
  - apply Hs. intros c. rewrite Hq, Hl. simpl. by intros ?%elem_of_nil.
  - split; [congruence|]. split; [congruence|]. rewrite Hlen, Hq. simpl. lia.
Qed.

Lemma steps_invariants (w0 w : World) :
  rtc (step connect_ok) w0 w ->
  ints_ok (pool w0) ->
  ints_ok (pool w) /\
  same_config (pool w0) (pool w) /\
  (stamps_past w0 -> stamps_past w) /\
  now w0 <= now w /\
  (_initSize (pool w0) <= cnt w0 <= _maxSize (pool w0) ->
   _initSize (pool w0) <= cnt w <= _maxSize (pool w0)).
Proof.
  induction 1 as [w|w1 w2 w3 Hstep Hsteps IH]; intros Hints.
  - split; [done|]. split; [apply same_config_refl|]. split; [done|]. split; [lia|done].
  - destruct (step_invariants _ _ _ Hstep Hints) as (Hints2 & Hcfg & Hs & Hnow & Hb).
    destruct (IH Hints2) as (Hints3 & Hcfg3 & Hs3 & Hnow3 & Hb3).
    split; [done|]. split; [by eapply same_config_trans|]. split; [auto|]. split; [lia|].
    intros Hb1. specialize (Hb Hb1).
    destruct Hcfg as (_ & _ & _ & _ & _ & Ei & Em & _). rewrite Ei, Em in *. auto.
Qed.

(** What holds of every state the running pool can be in. *)
Lemma reachable_invariants (ini : string) (t0 : Z) (w : World) :
  reachable port_cast connect_ok ini t0 w ->
  ints_ok (pool w) /\
  stamps_past w /\
  (_initSize (pool w) <= _maxSize (pool w) -> 0 <= _maxSize (pool w) ->
   _initSize (pool w) <= cnt w <= _maxSize (pool w)).
Proof.
  intros (w0 & Hctor & Hsteps).
  apply ctor_spec in Hctor as (Hints & Hcnt & Hstamps & _).
  destruct (steps_invariants _ _ Hsteps Hints) as (Hints' & Hcfg & Hs & _ & Hb).
  split; [done|]. split; [auto|].
  destruct Hcfg as (_ & _ & _ & _ & _ & Ei & Em & _). rewrite <- Ei, <- Em.
  intros Hle Hpos. apply Hb. lia.
Qed.

(** *** The lines loadConfigFile passes over *)

Lemma extract_until_absent (delim : ascii) (s : string) :
  has_char delim s = false -> extract_until delim s = (s, None).
Proof.
  induction s as [|c s IH]; simpl; [done|].
  destruct (Ascii.eqb c delim); simpl; [done|].
  intros H. by rewrite IH.
Qed.

Lemma extract_until_present (delim : ascii) (key rest : string) :
  has_char delim key = false ->
  extract_until delim (key +:+ String delim rest) = (key, Some rest).
Proof.
  induction key as [|c key IH]; simpl.
  - by rewrite Ascii.eqb_refl.
  - destruct (Ascii.eqb c delim); simpl; [done|]. intros H. by rewrite IH.
Qed.

(** X3: a line without [=] configures nothing. *)
Lemma configure_line_no_separator (line : string) (w : World) :
  has_char "="%char line = false ->
  configure_line port_cast line w = Normal tt w.
Proof.
  intros H. unfold configure_line, getline, open_stream. simpl.
  rewrite (extract_until_absent _ _ H).
  by destruct (String.eqb line EmptyString).
Qed.

(** X4: a line whose key is not in the table configures nothing. *)
Lemma configure_line_unknown_key (key value : string) (w : World) :
  has_char "="%char key = false ->
  configMap port_cast !! key = None ->
  configure_line port_cast (key +:+ String "="%char value) w = Normal tt w.
Proof.
  intros H Hk. unfold configure_line, getline, open_stream. simpl.
  rewrite (extract_until_present _ _ _ H). simpl.
  destruct (extract_until newline value) as [v [r|]].
  - by rewrite Hk.
  - destruct (String.eqb v EmptyString); simpl; [done|]. by rewrite Hk.
Qed.

(** Without the file the constructor logs the failure and starts
    nothing: no connection, no background task. *)
Lemma ctor_missing_file (w : World) :
  ConnectionPool_ctor port_cast connect_ok None w = Normal false (emit (EvLog no_file_msg) w).
Proof. done. Qed.

End Construction.

(** * The claims *)

(** ** The running example is a state of the pool *)

Lemma ex_started_ctor :
  ConnectionPool_ctor ex_port_cast all_accept (Some ex_ini) (fresh_world 0) =
  Normal true ex_started.
Proof. vm_compute. reflexivity. Qed.

Lemma ex_exhausted_steps : rtc (step all_accept) ex_started ex_exhausted.
Proof.
  eapply (rtc_l _ _ ex_one_leased).
  { by apply (step_take _ _ ex_conn0). }
  eapply (rtc_l _ _ ex_refilled).
  { by apply step_produce. }
  eapply (rtc_l _ _ ex_exhausted).
  { by apply (step_take _ _ ex_conn1). }
  apply rtc_refl.
Qed.

Lemma ex_exhausted_reachable : reachable ex_port_cast all_accept ex_ini 0 ex_exhausted.
Proof. exists ex_started. split; [apply ex_started_ctor|apply ex_exhausted_steps]. Qed.

Lemma ex_idle_steps : rtc (step all_accept) ex_exhausted ex_idle.
Proof.
  eapply rtc_l; [apply (step_tick _ _ 5000); lia|].
  eapply rtc_l.
  { apply (step_release _ _ ex_conn0); [|reflexivity]. simpl. set_solver. }
  eapply rtc_l; [apply (step_tick _ _ 5000); lia|].
  eapply rtc_l.
  { apply (step_release _ _ ex_conn1); [|reflexivity]. simpl. set_solver. }
  eapply rtc_l; [apply (step_tick _ _ 2000); lia|].
  apply rtc_refl.
Qed.

Lemma ex_idle_reachable : reachable ex_port_cast all_accept ex_ini 0 ex_idle.
Proof.
  exists ex_started. split; [apply ex_started_ctor|].
  etrans; [apply ex_exhausted_steps|apply ex_idle_steps].
Qed.

(** ** The live counter *)

Section Counter.

Variable port_cast : Z -> Z.
Variable connect_ok : nat -> bool.

(** How one critical section moves the counter. *)
Lemma step_cnt (w w' : World) :
  step connect_ok w w' ->
  ints_ok (pool w) ->
  cnt w' = cnt w \/
  (cnt w' = cnt w + 1 /\ cnt w < _maxSize (pool w)) \/
  (_initSize (pool w) <= cnt w' < cnt w).
Proof.
  intros Hstep Hints.
  destruct Hstep as [w d Hd|w w' H|w w' H|w p w' Hne H|w w' He H|w p w' Hin H].
  - by left.
  - rewrite produce_eq in H. destruct (que w); [|discriminate]. injection H as <-.
    destruct (Z.ltb_spec (cnt w) (_maxSize (pool w))) as [Hlt|Hge]; [|by left].
    right. left. split; [|done].
    change (cnt (emit EvNotifyAll (created connect_ok w))) with (wrap_int (cnt w + 1)).
    apply wrap_int_id. destruct Hints as (_ & Hm & _ & _ & Hn).
    unfold cnt, Int_ok in *. lia.
  - destruct (scan_spec w Hints) as (ev & Hev & _ & Hfloor & _ & _).
    cbv zeta in *. rewrite H in *. simpl in Hev, Hfloor.
    destruct Hev as (_ & E2 & _).
    destruct Hfloor as [->|Hfloor]; [left; rewrite E2; simpl; lia|].
    destruct ev as [|p ev]; [left; rewrite E2; simpl; lia|].
    right. right. rewrite E2 in *. simpl length in *. lia.
  - rewrite take_eq in H. destruct (que w) as [|c q]; [done|]. injection H as <- <-.
    by left.
  - injection H as <-. by left.
  - rewrite release_eq in H. injection H as <-. by left.
Qed.

(** C1: in every state of a pool whose constructor has read its
    configuration and created the initial connections, the live counter
    lies between [_initSize] and [_maxSize], for a configuration with
    [_initSize <= _maxSize] and [0 <= _maxSize] (no counter can lie
    between the two otherwise).  Every critical section leaves the counter
    alone, or adds one while it is strictly below [_maxSize] (the producer),
    or takes it down to a value still at or above [_initSize] (the
    scanner); taking and releasing a connection leave it alone. *)
Theorem live_count_within_bounds (ini : string) (t0 : Z) (w : World) :
  reachable port_cast connect_ok ini t0 w ->
  _initSize (pool w) <= _maxSize (pool w) ->
  0 <= _maxSize (pool w) ->
  _initSize (pool w) <= cnt w <= _maxSize (pool w) /\
  (forall w', step connect_ok w w' ->
     cnt w' = cnt w \/
     (cnt w' = cnt w + 1 /\ cnt w < _maxSize (pool w)) \/
     (_initSize (pool w) <= cnt w' < cnt w)) /\
  (forall p w', getConnection_take w = Normal p w' -> cnt w' = cnt w) /\
  (forall p w', release p w = Normal tt w' -> cnt w' = cnt w).
Proof.
  intros Hreach Hle Hpos.
  destruct (reachable_invariants _ _ _ _ _ Hreach) as (Hints & _ & Hb).
  split; [by apply Hb|]. split; [intros w' Hstep; by apply step_cnt|]. split.
  - intros p w'. rewrite take_eq. destruct (que w); [done|]. by intros [= _ <-].
  - intros p w'. rewrite release_eq. by intros [= <-].
Qed.

End Counter.

Lemma live_count_within_bounds_witness :
  reachable ex_port_cast all_accept ex_ini 0 ex_idle /\
  _initSize (pool ex_idle) <= _maxSize (pool ex_idle) /\
  0 <= _maxSize (pool ex_idle) /\
  _initSize (pool ex_idle) <= cnt ex_idle <= _maxSize (pool ex_idle).
Proof.
  split; [apply ex_idle_reachable|].
  split; [simpl; lia|]. split; [simpl; lia|].
  apply (live_count_within_bounds ex_port_cast all_accept ex_ini 0 ex_idle).
  - apply ex_idle_reachable.
  - simpl; lia.
  - simpl; lia.
Defined.

(** ** The scanner *)

Lemma ex_idle_ints : ints_ok (pool ex_idle).
Proof. unfold ints_ok, Int_ok, INT_MIN, INT_MAX. simpl. lia. Qed.




(** ** The producer *)

Section Producer.

Variable connect_ok : nat -> bool.

(** C4: one turn of the producer.  With an entry in the queue it waits
    and does nothing.  With the queue empty and the counter strictly below
    [_maxSize] it creates one connection, connects it, stamps it, pushes
    it, adds exactly one to the counter and then broadcasts.  With the
    queue empty and the counter at [_maxSize] or above it creates nothing
    and still broadcasts. *)
Theorem producer_iteration_effect (w : World) :
  ints_ok (pool w) ->
  (que w <> [] -> produceConnectionTask_iter connect_ok w = Normal Waiting w) /\
  (que w = [] -> cnt w < _maxSize (pool w) ->
   exists w',
     produceConnectionTask_iter connect_ok w = Normal Iterated w' /\
     que w' = [fresh_connection connect_ok w] /\
     cnt w' = cnt w + 1 /\
     same_config (pool w) (pool w') /\
     now w' = now w /\ leased w' = leased w /\ next_id w' = S (next_id w) /\
     trace w' = trace w ++ creation_events connect_ok w ++ [EvNotifyAll]) /\
  (que w = [] -> _maxSize (pool w) <= cnt w ->
   produceConnectionTask_iter connect_ok w = Normal Iterated (emit EvNotifyAll w)).
Proof.
  intros Hints. rewrite produce_eq. split; [|split].
  - intros Hne. by destruct (que w).
  - intros Hq Hlt. rewrite Hq.
    destruct (Z.ltb_spec (cnt w) (_maxSize (pool w))) as [_|Hge]; [|lia].
    eexists. split; [reflexivity|].
    split; [unfold que at 1; simpl; fold (que w); by rewrite Hq|].
    split.
    { change (cnt (emit EvNotifyAll (created connect_ok w))) with (wrap_int (cnt w + 1)).
      apply wrap_int_id. destruct Hints as (_ & Hm & _ & _ & Hn).
      unfold cnt, Int_ok in *. lia. }
    split; [by repeat split|]. repeat (split; [done|]).
    simpl. by rewrite <- app_assoc.
  - intros Hq Hge. rewrite Hq.
    by destruct (Z.ltb_spec (cnt w) (_maxSize (pool w))) as [Hlt|_]; [lia|].
Qed.

End Producer.

Lemma ex_one_leased_ints : ints_ok (pool ex_one_leased).
Proof. unfold ints_ok, Int_ok, INT_MIN, INT_MAX. simpl. lia. Qed.

Lemma producer_iteration_effect_witness :
  ints_ok (pool ex_one_leased) /\
  exists w',
    produceConnectionTask_iter all_accept ex_one_leased = Normal Iterated w' /\
    que w' = [fresh_connection all_accept ex_one_leased] /\
    cnt w' = cnt ex_one_leased + 1.
Proof.
  split; [apply ex_one_leased_ints|].
  destruct (producer_iteration_effect all_accept ex_one_leased ex_one_leased_ints) as (_ & Hcreate & _).
  destruct Hcreate as (w' & Hrun & Hq & Hc & _); [reflexivity|by vm_compute|].
  exists w'. split; [exact Hrun|]. split; [exact Hq|exact Hc].
Defined.

(** ** getConnection *)

Lemma getConnection_eq (envs : list (World -> World)) (w : World) :
  getConnection envs w =
  match que w with
  | p :: q => Normal (Returned (Some p)) (taken w p q)
  | [] =>
      match envs with
      | [] => Normal StillWaiting w
      | env :: envs' =>
          if now (env w) - now w <? _connectionTimeout (pool w)
          then getConnection envs' (env w)
          else
            match que (env w) with
            | [] => Normal (Returned None) (emit (EvLog timeout_msg) (env w))
            | _ :: _ => getConnection envs' (env w)
            end
      end
  end.
Proof.
  destruct envs as [|env envs']; simpl.
  - unfold bind at 1. unfold que_empty, get at 1.
    destruct (que w) as [|p q] eqn:E; [done|].
    unfold bind. rewrite take_eq, E. done.
  - unfold bind at 1. unfold que_empty, get at 1.
    destruct (que w) as [|p q] eqn:E.
    + unfold bind at 1. unfold get at 1. unfold bind at 1. unfold wait_for.
      destruct (now (env w) - now w <? _connectionTimeout (pool w)); [done|].
      unfold bind at 1. unfold get at 1. by destruct (que (env w)).
    + unfold bind. rewrite take_eq, E. done.
Qed.

(** A call that gives up has added nothing but the log line to what the
    rest of the system did during its waits. *)
Lemma getConnection_null (envs : list (World -> World)) (w w' : World) :
  getConnection envs w = Normal (Returned None) w' ->
  exists used rest,
    envs = used ++ rest /\ used <> [] /\
    que (interfered used w) = [] /\
    w' = emit (EvLog timeout_msg) (interfered used w).
Proof.
  revert w. induction envs as [|env envs IH]; intros w; rewrite getConnection_eq.
  - by destruct (que w).
  - destruct (que w) as [|p q]; [|discriminate].
    assert (Hrec : getConnection envs (env w) = Normal (Returned None) w' ->
                   exists used rest, env :: envs = used ++ rest /\ used <> [] /\
                     que (interfered used w) = [] /\
                     w' = emit (EvLog timeout_msg) (interfered used w)).
    { intros H. destruct (IH _ H) as (used & rest & -> & _ & Hq & ->).
      by exists (env :: used), rest. }
    destruct (now (env w) - now w <? _connectionTimeout (pool w)); [done|].
    destruct (que (env w)) as [|p q] eqn:Hq; [|done].
    intros [= <-]. by exists [env], envs.
Qed.

(** A call of getConnection that returns the null pointer has waited at
    least once, the queue was empty when it gave up, and the state it
    leaves is the state the rest of the system produced during its waits
    with the log line added. *)
Lemma null_return_leaves_pool (envs : list (World -> World)) (w w' : World) :
  getConnection envs w = Normal (Returned None) w' ->
  exists used rest,
    envs = used ++ rest /\ used <> [] /\
    que (interfered used w) = [] /\
    pool w' = pool (interfered used w) /\
    leased w' = leased (interfered used w) /\
    now w' = now (interfered used w) /\
    trace w' = trace (interfered used w) ++ [EvLog timeout_msg].
Proof.
  intros H. destruct (getConnection_null _ _ _ H) as (used & rest & Hsplit & Hne & Hq & ->).
  exists used, rest. by repeat (split; [done|]).
Qed.

Lemma interfered_app (envs1 envs2 : list (World -> World)) (w : World) :
  interfered (envs1 ++ envs2) w = interfered envs2 (interfered envs1 w).
Proof. unfold interfered. apply foldl_app. Qed.

Lemma interfered_quiet (envs : list (World -> World)) (w : World) :
  (forall env x, env ∈ envs -> pool (env x) = pool x) ->
  pool (interfered envs w) = pool w.
Proof.
  revert w. induction envs as [|env envs IH]; intros w Hquiet; [done|].
  simpl. rewrite IH.
  - apply Hquiet. set_solver.
  - intros e x He. apply Hquiet. set_solver.
Qed.

(** Waits that end early with the queue empty leave the call where it
    was: at the head of its loop, about to wait again. *)
Lemma getConnection_woken_early (used envs : list (World -> World)) (w : World) :
  que w = [] ->
  woken_early used w ->
  getConnection (used ++ envs) w = getConnection envs (interfered used w) /\
  que (interfered used w) = [].
Proof.
  revert w. induction used as [|env used IH]; intros w Hq Hearly; [done|].
  destruct Hearly as (Hq' & Hlt & Hearly). simpl app.
  rewrite getConnection_eq, Hq.
  destruct (Z.ltb_spec (now (env w) - now w) (_connectionTimeout (pool w))) as [_|Hge]; [|lia].
  by apply IH.
Qed.

(** C5: a call of getConnection on an empty queue whose wait [last]
    times out (at least [_connectionTimeout] ms have passed when it has the
    lock again) with the queue still empty, after any number of waits
    [used] that ended early with the queue empty.  The call writes the
    timeout line to the log and returns the null pointer; the state it
    leaves is the state the rest of the system produced during these waits
    with that log line added: queue, counter, configuration and outstanding
    handles are untouched by the call, and equal to what they were before
    the call when nobody else wrote them. *)
Theorem timed_out_acquire_leaves_pool (used : list (World -> World)) (last : World -> World)
    (rest : list (World -> World)) (w : World) :
  que w = [] ->
  woken_early used w ->
  que (last (interfered used w)) = [] ->
  _connectionTimeout (pool (interfered used w)) <=
    now (last (interfered used w)) - now (interfered used w) ->
  exists w',
    getConnection (used ++ last :: rest) w = Normal (Returned None) w' /\
    trace w' = trace (interfered (used ++ [last]) w) ++ [EvLog timeout_msg] /\
    pool w' = pool (interfered (used ++ [last]) w) /\
    leased w' = leased (interfered (used ++ [last]) w) /\
    now w' = now (interfered (used ++ [last]) w) /\
    next_id w' = next_id (interfered (used ++ [last]) w) /\
    ((forall env x, env ∈ used ++ [last] -> pool (env x) = pool x) -> pool w' = pool w).
Proof.
  intros Hq Hearly Hq' Hout.
  destruct (getConnection_woken_early used (last :: rest) w Hq Hearly) as [Hrun Hq1].
  exists (emit (EvLog timeout_msg) (last (interfered used w))).
  rewrite interfered_app. change (interfered [last] ?x) with (last x).
  split.
  { rewrite Hrun, getConnection_eq, Hq1.
    destruct (Z.ltb_spec (now (last (interfered used w)) - now (interfered used w))
                (_connectionTimeout (pool (interfered used w)))) as [Hlt|_]; [lia|].
    by rewrite Hq'. }
  repeat (split; [done|]).
  intros Hquiet. simpl pool.
  rewrite <- (interfered_quiet (used ++ [last]) w Hquiet).
  by rewrite interfered_app.
Qed.

Lemma timed_out_acquire_leaves_pool_witness :
  que ex_exhausted = [] /\
  woken_early [notified_by_producer all_accept 60] ex_exhausted /\
  que (ex_late_wake (interfered [notified_by_producer all_accept 60] ex_exhausted)) = [] /\
  exists w',
    getConnection [notified_by_producer all_accept 60; ex_late_wake] ex_exhausted =
      Normal (Returned None) w' /\
    pool w' = pool ex_exhausted /\
    leased w' = leased ex_exhausted.
Proof.
  assert (Hearly : woken_early [notified_by_producer all_accept 60] ex_exhausted).
  { split; [reflexivity|]. split; [by vm_compute|exact I]. }
  split; [reflexivity|]. split; [exact Hearly|]. split; [reflexivity|].
  destruct (timed_out_acquire_leaves_pool [notified_by_producer all_accept 60] ex_late_wake []
              ex_exhausted eq_refl Hearly eq_refl)
    as (w' & Hrun & _ & Hp & Hl & _ & _ & _); [by vm_compute|].
  exists w'. split; [exact Hrun|]. split.
  - rewrite Hp. reflexivity.
  - rewrite Hl. reflexivity.
Defined.

Section Acquire.

Variable connect_ok : nat -> bool.

(** The sections of getConnection are sections of the system: a call
    whose waits are filled by the system ends in a state of the system. *)
Lemma getConnection_steps (envs : list (World -> World)) (w w' : World) (r : get_result) :
  Forall (fun env => forall x, rtc (step connect_ok) x (env x)) envs ->
  getConnection envs w = Normal r w' ->
  rtc (step connect_ok) w w'.
Proof.
  revert w. induction envs as [|env envs IH]; intros w Henv; rewrite getConnection_eq.
  - destruct (que w) as [|p q] eqn:Hq.
    + intros [= _ <-]. apply rtc_refl.
    + intros [= _ <-]. apply rtc_once. apply (step_take _ _ p); [by rewrite Hq|].
      by rewrite take_eq, Hq.
  - apply Forall_cons in Henv as [He Henv].
    destruct (que w) as [|p q] eqn:Hq.
    + destruct (now (env w) - now w <? _connectionTimeout (pool w)).
      { intros H. etrans; [apply He|by apply IH]. }
      destruct (que (env w)) as [|p q] eqn:Hq'.
      * intros [= _ <-]. etrans; [apply He|]. apply rtc_once. by apply step_timeout.
      * intros H. etrans; [apply He|by apply IH].
    + intros [= _ <-]. apply rtc_once. apply (step_take _ _ p); [by rewrite Hq|].
      by rewrite take_eq, Hq.
Qed.

(** A wait that a broadcast of the producer ends before the timeout
    starts the next wait with the full timeout again. *)
Lemma wait_restarts (d : Z) (envs : list (World -> World)) (w : World) :
  que w = [] ->
  _maxSize (pool w) <= cnt w ->
  d < _connectionTimeout (pool w) ->
  getConnection (notified_by_producer connect_ok d :: envs) w =
  getConnection envs (emit EvNotifyAll (tick d w)).
Proof.
  intros Hq Hfull Hd. rewrite getConnection_eq, Hq.
  assert (E : notified_by_producer connect_ok d w = emit EvNotifyAll (tick d w)).
  { unfold notified_by_producer. rewrite produce_eq.
    change (que (tick d w)) with (que w). rewrite Hq.
    change (cnt (tick d w)) with (cnt w).
    change (_maxSize (pool (tick d w))) with (_maxSize (pool w)).
    by destruct (Z.ltb_spec (cnt w) (_maxSize (pool w))) as [Hlt|_]; [lia|]. }
  rewrite E. simpl now.
  by destruct (Z.ltb_spec (now w + d - now w) (_connectionTimeout (pool w))) as [_|Hge]; [|lia].
Qed.

Lemma waits_restart (d : Z) (n : nat) (envs : list (World -> World)) (w : World) :
  que w = [] ->
  _maxSize (pool w) <= cnt w ->
  d < _connectionTimeout (pool w) ->
  exists w1,
    getConnection (repeat (notified_by_producer connect_ok d) n ++ envs) w =
      getConnection envs w1 /\
    pool w1 = pool w /\ leased w1 = leased w /\
    now w1 = now w + Z.of_nat n * d.
Proof.
  revert w. induction n as [|n IH]; intros w Hq Hfull Hd.
  - exists w. simpl. repeat split; try done. lia.
  - simpl repeat. simpl app. rewrite wait_restarts by done.
    destruct (IH (emit EvNotifyAll (tick d w))) as (w1 & Hrun & Hp & Hl & Hn); try done.
    exists w1. rewrite Hrun, Hp, Hl, Hn. repeat split; try done. simpl. lia.
Qed.

End Acquire.

(** C2: against the exhausted pool of the example, with
    [connectionTimeOut=100], a call of getConnection whose waits are ended
    [n] times after 60 ms by the broadcast the producer sends on each of its
    turns, and which then waits 100 ms undisturbed, returns the null pointer
    only 100 + 60 n ms after the call, with no connection returned
    meanwhile: each wait is given the full timeout, not what is left of it.
    As long as such broadcasts keep coming the call does not return. *)
Theorem acquire_timeout_restarts (n : nat) :
  que ex_exhausted = [] /\
  cnt ex_exhausted = _maxSize (pool ex_exhausted) /\
  _connectionTimeout (pool ex_exhausted) = 100 /\
  (exists w',
     getConnection (repeat (notified_by_producer all_accept 60) n ++ [tick 100]) ex_exhausted =
       Normal (Returned None) w' /\
     now w' - now ex_exhausted = 100 + 60 * Z.of_nat n /\
     pool w' = pool ex_exhausted /\ leased w' = leased ex_exhausted) /\
  (exists w',
     getConnection (repeat (notified_by_producer all_accept 60) n) ex_exhausted =
       Normal StillWaiting w' /\
     now w' - now ex_exhausted = 60 * Z.of_nat n).
Proof.
  split; [done|]. split; [done|]. split; [done|]. split.
  - destruct (waits_restart all_accept 60 n [tick 100] ex_exhausted) as (w1 & Hrun & Hp & Hl & Hn);
      [done|by vm_compute|by vm_compute|].
    exists (emit (EvLog timeout_msg) (tick 100 w1)). split.
    + rewrite Hrun, getConnection_eq. unfold que. rewrite Hp. simpl.
      destruct (Z.ltb_spec (now w1 + 100 - now w1) 100) as [Hlt|_]; [lia|].
      unfold que. simpl. by rewrite Hp.
    + simpl. rewrite Hn, Hp, Hl. simpl. split; [lia|done].
  - destruct (waits_restart all_accept 60 n [] ex_exhausted) as (w1 & Hrun & Hp & Hl & Hn);
      [done|by vm_compute|by vm_compute|].
    exists w1. rewrite app_nil_r in Hrun. split.
    + rewrite Hrun, getConnection_eq. unfold que. by rewrite Hp.
    + rewrite Hn. simpl. lia.
Qed.

(** ** The deleter *)

Section Release.

Variable port_cast : Z -> Z.
Variable connect_ok : nat -> bool.

(** C6: the deleter of a handle that is out, in any state of the running
    pool.  It stamps the connection with the current time and pushes it at
    the tail of the queue; the counter, the configuration, the rest of the
    queue and the other handles stay as they are, the two events it emits
    are the stamp and the push (no destruction, no decrement), and the new
    stamp is not older than the one the connection carried when it was
    handed out. *)
Theorem release_returns_connection (ini : string) (t0 : Z) (w : World) (pcon : Connection) :
  reachable port_cast connect_ok ini t0 w ->
  pcon ∈ leased w ->
  exists w',
    release pcon w = Normal tt w' /\
    que w' = que w ++ [restamped w pcon] /\
    conn_id (restamped w pcon) = conn_id pcon /\
    conn_connected (restamped w pcon) = conn_connected pcon /\
    _alivetime pcon <= _alivetime (restamped w pcon) /\
    cnt w' = cnt w /\
    same_config (pool w) (pool w') /\
    leased w' = drop_lease pcon (leased w) /\
    now w' = now w /\ next_id w' = next_id w /\
    trace w' = trace w ++ [EvRefresh (conn_id pcon) (now w); EvPush (conn_id pcon)].
Proof.
  intros Hreach Hin.
  destruct (reachable_invariants _ _ _ _ _ Hreach) as (_ & Hstamps & _).
  exists (released w pcon). split; [apply release_eq|].
  split; [done|]. split; [done|]. split; [done|]. split.
  { simpl. apply Hstamps. rewrite elem_of_app. by right. }
  split; [done|]. split; [by repeat split|]. by repeat split.
Qed.

End Release.

Lemma release_returns_connection_witness :
  reachable ex_port_cast all_accept ex_ini 0 (tick 5000 ex_exhausted) /\
  ex_conn0 ∈ leased (tick 5000 ex_exhausted) /\
  exists w',
    release ex_conn0 (tick 5000 ex_exhausted) = Normal tt w' /\
    que w' = [restamped (tick 5000 ex_exhausted) ex_conn0] /\
    _alivetime ex_conn0 <= _alivetime (restamped (tick 5000 ex_exhausted) ex_conn0) /\
    cnt w' = 2.
Proof.
  assert (Hr : reachable ex_port_cast all_accept ex_ini 0 (tick 5000 ex_exhausted)).
  { exists ex_started. split; [apply ex_started_ctor|].
    etrans; [apply ex_exhausted_steps|]. apply rtc_once. apply step_tick. lia. }
  assert (Hin : ex_conn0 ∈ leased (tick 5000 ex_exhausted)) by (simpl; set_solver).
  split; [exact Hr|]. split; [exact Hin|].
  destruct (release_returns_connection _ _ _ _ _ _ Hr Hin)
    as (w' & Hrun & Hq & _ & _ & Hstamp & Hc & _).
  exists w'. split; [exact Hrun|]. split; [exact Hq|]. split; [exact Hstamp|exact Hc].
Defined.

(** ** Broadcasts *)

Section Broadcasts.

Variable connect_ok : nat -> bool.

Lemma emitted_app {A} (m : M A) (w : World) (evs : list Event) :
  trace (world_of (m w)) = trace w ++ evs -> emitted m w = evs.
Proof. unfold emitted. intros ->. apply drop_app_length. Qed.

Lemma emitted_produce (w : World) :
  emitted (produceConnectionTask_iter connect_ok) w =
  match que w with
  | [] => (if cnt w <? _maxSize (pool w) then creation_events connect_ok w else [])
          ++ [EvNotifyAll]
  | _ :: _ => []
  end.
Proof.
  apply emitted_app. rewrite produce_eq.
  destruct (que w); [|simpl; by rewrite app_nil_r].
  destruct (cnt w <? _maxSize (pool w)); simpl; [|done]. by rewrite <- app_assoc.
Qed.

Lemma emitted_take (w : World) :
  emitted getConnection_take w =
  match que w with
  | [] => []
  | p :: _ => [EvPop (conn_id p); EvNotifyAll]
  end.
Proof.
  apply emitted_app. rewrite take_eq.
  destruct (que w); simpl; [by rewrite app_nil_r|done].
Qed.

Lemma emitted_release (pcon : Connection) (w : World) :
  emitted (release pcon) w = [EvRefresh (conn_id pcon) (now w); EvPush (conn_id pcon)].
Proof. apply emitted_app. by rewrite release_eq. Qed.

(** Every write to the queue or to the counter made by a turn of the
    producer or by the hand-out of getConnection is followed, within the
    same critical section, by a broadcast on the condition variable.  The
    deleter stamps and pushes the connection and leaves the section
    without one. *)
Lemma producer_and_acquire_broadcast (w : World) :
  broadcast_follows (emitted (produceConnectionTask_iter connect_ok) w) = true /\
  broadcast_follows (emitted getConnection_take w) = true /\
  (forall pcon,
     emitted (release pcon) w = [EvRefresh (conn_id pcon) (now w); EvPush (conn_id pcon)] /\
     existsb is_broadcast (emitted (release pcon) w) = false).
Proof.
  split; [|split].
  - rewrite emitted_produce. destruct (que w); [|done].
    by destruct (cnt w <? _maxSize (pool w)).
  - rewrite emitted_take. by destruct (que w).
  - intros pcon. by rewrite emitted_release.
Qed.

End Broadcasts.

(** C7: the first handle of the exhausted pool is released.  The deleter
    pushes the connection back and broadcasts nothing, where the push of
    the producer (line 182) and the pop of getConnection (line 247) are
    each followed by a broadcast.  The producer, which finds the queue
    non-empty from then on, waits without a broadcast of its own: nobody
    wakes a caller that is waiting for this connection. *)
Theorem release_wakes_nobody :
  let returned := world_of (release ex_conn0 ex_exhausted) in
  que ex_exhausted = [] /\
  que returned = [ex_conn0] /\
  emitted (release ex_conn0) ex_exhausted = [EvRefresh 0 0; EvPush 0] /\
  broadcast_follows (emitted (release ex_conn0) ex_exhausted) = false /\
  produceConnectionTask_iter all_accept returned = Normal Waiting returned /\
  emitted (produceConnectionTask_iter all_accept) ex_one_leased =
    [EvNew 1; EvConnect 1 true; EvRefresh 1 0; EvPush 1; EvCntIncr; EvNotifyAll] /\
  emitted getConnection_take ex_started = [EvPop 0; EvNotifyAll].
Proof. by vm_compute. Qed.

(** ** The scanner at an empty queue *)

(** C8: a state of the running pool in which the scanner, holding the
    lock, finds the counter above [_initSize] and the queue empty: both
    connections of the example are out.  Line 198 then reads the front of
    an empty std::queue. *)
Theorem scanner_reads_empty_queue :
  reachable ex_port_cast all_accept ex_ini 0 ex_exhausted /\
  que ex_exhausted = [] /\
  leased ex_exhausted = [ex_conn0; ex_conn1] /\
  _initSize (pool ex_exhausted) < cnt ex_exhausted /\
  scannerConnectionTask_scan ex_exhausted = Undefined ex_exhausted.
Proof.
  split; [apply ex_exhausted_reachable|]. split; [done|]. split; [done|].
  split; [by vm_compute|]. apply scan_front_of_empty; by vm_compute.
Qed.

(** ** Connections the backend refuses *)

(** C9 as stated fails: with a backend that refuses every connection,
    the constructor still counts the connection it could not establish,
    and so does the producer once that connection is handed out: the
    result of [connect] is dropped at lines 145 and 175. *)
Lemma refused_connection_is_counted :
  let started :=
    world_of (ConnectionPool_ctor ex_port_cast all_refuse (Some ex_ini) (fresh_world 0)) in
  let handed_out := world_of (getConnection [] started) in
  let produced := world_of (produceConnectionTask_iter all_refuse handed_out) in
  trace started = [EvNew 0; EvConnect 0 false; EvRefresh 0 0; EvPush 0; EvCntIncr] /\
  cnt started = 1 /\
  que handed_out = [] /\
  emitted (produceConnectionTask_iter all_refuse) handed_out =
    [EvNew 1; EvConnect 1 false; EvRefresh 1 0; EvPush 1; EvCntIncr; EvNotifyAll] /\
  cnt produced = 2 /\
  que produced = [{| conn_id := 1; conn_connected := false; _alivetime := 0 |}].
Proof. by vm_compute. Qed.

Section Refused.

Variable connect_ok : nat -> bool.

(** C9 as amended: an attempt of the producer or of the constructor to
    create a connection whose [connect] call fails.  The result of
    [connect] is not consulted: the unconnected connection is stamped and
    pushed, and the live counter goes up by one all the same.  The producer
    runs these lines on an empty queue below [_maxSize], the constructor
    runs them once per turn of its loop. *)
Theorem refused_connection_counts (w : World) :
  ints_ok (pool w) ->
  cnt w < INT_MAX ->
  connect_ok (next_id w) = false ->
  exists w',
    create_connection connect_ok w = Normal tt w' /\
    cnt w' = cnt w + 1 /\
    que w' = que w ++ [{| conn_id := next_id w; conn_connected := false;
                          _alivetime := now w |}] /\
    trace w' = trace w ++ [EvNew (next_id w); EvConnect (next_id w) false;
                           EvRefresh (next_id w) (now w); EvPush (next_id w); EvCntIncr] /\
    (que w = [] -> cnt w < _maxSize (pool w) ->
     produceConnectionTask_iter connect_ok w = Normal Iterated (emit EvNotifyAll w')) /\
    (forall n, create_initial connect_ok (S n) w = create_initial connect_ok n w').
Proof.
  intros Hints Hmax Hfail.
  exists (created connect_ok w). split; [apply create_connection_eq|].
  split.
  { change (cnt (created connect_ok w)) with (wrap_int (cnt w + 1)).
    apply wrap_int_id. destruct Hints as (_ & _ & _ & _ & Hn).
    unfold cnt, Int_ok, INT_MAX in *. lia. }
  split.
  { change (que (created connect_ok w)) with (que w ++ [fresh_connection connect_ok w]).
    unfold fresh_connection. by rewrite Hfail. }
  split.
  { change (trace (created connect_ok w)) with (trace w ++ creation_events connect_ok w).
    unfold creation_events. by rewrite Hfail. }
  split.
  - intros Hq Hlt. rewrite produce_eq, Hq.
    by destruct (Z.ltb_spec (cnt w) (_maxSize (pool w))) as [_|Hge]; [|lia].
  - intros n. simpl. unfold bind. by rewrite create_connection_eq.
Qed.

End Refused.

Lemma refused_connection_counts_witness :
  ints_ok (pool ex_one_leased) /\
  cnt ex_one_leased < INT_MAX /\
  all_refuse (next_id ex_one_leased) = false /\
  exists w',
    create_connection all_refuse ex_one_leased = Normal tt w' /\
    cnt w' = cnt ex_one_leased + 1 /\
    produceConnectionTask_iter all_refuse ex_one_leased = Normal Iterated (emit EvNotifyAll w').
Proof.
  split; [apply ex_one_leased_ints|]. split; [by vm_compute|]. split; [reflexivity|].
  destruct (refused_connection_counts all_refuse ex_one_leased ex_one_leased_ints)
    as (w' & Hrun & Hc & _ & _ & Hprod & _); [by vm_compute|reflexivity|].
  exists w'. split; [exact Hrun|]. split; [exact Hc|].
  apply Hprod; [reflexivity|by vm_compute].
Defined.

(** ** Values that are not numbers *)

(** C10: a configuration file whose only line is [port=abc].  The
    handler of [port] calls std::stoi, which throws, and neither
    loadConfigFile nor the constructor catches. *)
Theorem non_numeric_value_throws :
  stoi "abc" = StoiThrows invalid_argument /\
  ConnectionPool_ctor ex_port_cast all_accept (Some "port=abc"%string) (fresh_world 0) =
    Threw invalid_argument (fresh_world 0) /\
  ConnectionPool_ctor ex_port_cast all_accept (Some "maxSize=99999999999"%string) (fresh_world 0) =
    Threw out_of_range (fresh_world 0).
Proof. by vm_compute. Qed.

(** * Further properties of the code *)

(** ** loadConfigFile, line by line *)

Section ConfigLines.

Variable port_cast : Z -> Z.

Lemma load_loop_fuel_indep (f1 f2 : nat) (file : istream) (w : World) :
  (stream_measure file < f1)%nat ->
  (stream_measure file < f2)%nat ->
  load_loop port_cast f1 file w = load_loop port_cast f2 file w.
Proof.
  revert f2 file w. induction f1 as [|f1 IH]; intros f2 file w H1 H2; [lia|].
  destruct f2 as [|f2]; [lia|]. simpl.
  destruct (getline file newline) as [[file' line] ok] eqn:G.
  destruct ok; [|done].
  apply getline_measure in G. unfold bind.
  destruct (configure_line port_cast line w) as [u w1|e w1|w1]; [|done..].
  apply IH; lia.
Qed.

Lemma getline_line (line rest : string) :
  has_char newline line = false ->
  getline (open_stream (line +:+ String newline rest)) newline = (open_stream rest, line, true).
Proof.
  intros H. unfold getline, open_stream. simpl.
  by rewrite (extract_until_present _ _ _ H).
Qed.

Lemma getline_last_line (line : string) :
  has_char newline line = false ->
  line <> EmptyString ->
  getline (open_stream line) newline =
  ({| rdbuf := EmptyString; eofbit := true; failbit := false |}, line, true).
Proof.
  intros H Hne. unfold getline, open_stream. simpl.
  rewrite (extract_until_absent _ _ H).
  by destruct (String.eqb_spec line EmptyString).
Qed.

(** X1: the file is processed one line at a time, in order: a first line
    that ends in a newline is configured and the rest of the file is
    loaded as a file of its own; a last line without a newline is
    configured as well.  So a later line for a key overrides an earlier
    one, and what a throwing line leaves behind is what the lines before
    it configured. *)
Theorem loadConfigFile_by_lines (line rest : string) (w : World) :
  has_char newline line = false ->
  loadConfigFile port_cast (Some (line +:+ String newline rest)) w =
    (configure_line port_cast line ;; loadConfigFile port_cast (Some rest)) w /\
  loadConfigFile port_cast (Some line) w =
    (configure_line port_cast line ;; ret true) w.
Proof.
  intros H. split.
  - unfold loadConfigFile, load_fuel.
    change (load_loop port_cast (S ?f) ?s) with
      (let '(file', l, ok) := getline s newline in
       if ok then configure_line port_cast l ;; load_loop port_cast f file' else ret true).
    rewrite (getline_line _ _ H). unfold bind.
    destruct (configure_line port_cast line w) as [u w1|e w1|w1]; [|done..].
    rewrite (load_loop_fuel_indep _ (S (S (String.length rest)))); [done|..];
      unfold stream_measure, open_stream; simpl.
    + assert (String.length rest < String.length (line +:+ String newline rest))%nat; [|lia].
      clear. induction line as [|c line IH]; simpl; lia.
    + lia.
  - unfold loadConfigFile, load_fuel.
    destruct (String.eqb_spec line EmptyString) as [->|Hne]; [done|].
    change (load_loop port_cast (S ?f) ?s) with
      (let '(file', l, ok) := getline s newline in
       if ok then configure_line port_cast l ;; load_loop port_cast f file' else ret true).
    rewrite (getline_last_line _ H Hne). unfold bind.
    by destruct (configure_line port_cast line w) as [u w1|e w1|w1].
Qed.

(** X2: loading a file that exists returns true or throws; when it returns,
    it has written configuration members only (queue, counter, clock,
    handles and log are as before) and every [int] member holds an [int]. *)
Theorem loadConfigFile_frame (content : string) (w w' : World) (b : bool) :
  loadConfigFile port_cast (Some content) w = Normal b w' ->
  b = true /\ config_only w w' /\ (ints_ok (pool w) -> ints_ok (pool w')).
Proof.
  unfold loadConfigFile. unfold bind.
  destruct (load_loop port_cast (load_fuel content) (open_stream content) w)
    as [b' w1|e w1|w1] eqn:El; [|done..].
  intros [= <- <-]. split; [done|].
  revert El. generalize (load_fuel content) (open_stream content). intros fuel file.
  revert file w. induction fuel as [|fuel IH]; intros file w.
  - intros [= _ <-]. split; [apply config_only_refl|done].
  - simpl. destruct (getline file newline) as [[file' l] ok].
    destruct ok; [|intros [= _ <-]; split; [apply config_only_refl|done]].
    unfold bind at 1.
    destruct (configure_line port_cast l w) as [u w2|e w2|w2] eqn:Ec; try discriminate.
    intros Hl. destruct (IH _ _ Hl) as [Hc Hi].
    assert (Hc2 : config_only w w2 /\ (ints_ok (pool w) -> ints_ok (pool w2))).
    { clear -Ec. unfold configure_line in Ec.
      destruct (getline (open_stream l) "="%char) as [[iss1 key] ok1].
      destruct ok1; [|unfold ret in Ec; simplify_eq; split; [apply config_only_refl|done]].
      destruct (getline iss1 newline) as [[iss2 value] ok2].
      destruct ok2; [|unfold ret in Ec; simplify_eq; split; [apply config_only_refl|done]].
      destruct (configMap port_cast !! key) as [h|] eqn:Hk;
        [|unfold ret in Ec; simplify_eq; split; [apply config_only_refl|done]].
      unfold configMap in Hk. apply elem_of_list_to_map_2 in Hk.
      repeat (apply elem_of_cons in Hk as [Hk|Hk]); try (by apply elem_of_nil in Hk);
        injection Hk as _ ->;
        first [ apply assign_int_inv in Ec as (n & Hr & ->)
              | unfold update, modify in Ec; simplify_eq ];
        (split; [by repeat split|]);
        intros (Hi & Hm & Ht & Hto & Hn); unfold ints_ok; simpl; tauto. }
    destruct Hc2 as [Hc2 Hi2].
    split; [by eapply config_only_trans|auto].
Qed.

(** *** What one line does *)

Lemma configure_line_assign (key value : string) (h : string -> M unit) (w : World) :
  has_char "="%char key = false ->
  has_char newline value = false ->
  value <> EmptyString ->
  configMap port_cast !! key = Some h ->
  configure_line port_cast (key +:+ String "="%char value) w = h value w.
Proof.
  intros Hk Hv Hne Hm. unfold configure_line, getline, open_stream. simpl.
  rewrite (extract_until_present _ _ _ Hk). simpl.
  rewrite (extract_until_absent _ _ Hv).
  destruct (String.eqb_spec value EmptyString); [done|]. simpl. by rewrite Hm.
Qed.

(** X5: a key with nothing behind the [=] configures nothing: the member
    keeps the value it had, also for a known key. *)
Theorem configure_line_empty_value (key : string) (w : World) :
  has_char "="%char key = false ->
  configure_line port_cast (key +:+ "=") w = Normal tt w.
Proof.
  intros Hk. unfold configure_line, getline, open_stream. simpl.
  by rewrite (extract_until_present _ _ _ Hk).
Qed.

(** X6: the text members take the value as it stands behind the first [=],
    further [=] signs, blanks and a trailing carriage return included. *)
Theorem configure_line_text_members (value : string) (w : World) :
  has_char newline value = false ->
  value <> EmptyString ->
  configure_line port_cast ("ip=" +:+ value) w =
    Normal tt (set_pool (set_ip value (pool w)) w) /\
  configure_line port_cast ("username=" +:+ value) w =
    Normal tt (set_pool (set_username value (pool w)) w) /\
  configure_line port_cast ("password=" +:+ value) w =
    Normal tt (set_pool (set_password value (pool w)) w) /\
  configure_line port_cast ("dbname=" +:+ value) w =
    Normal tt (set_pool (set_dbname value (pool w)) w).
Proof.
  intros Hv Hne.
  split; [|split; [|split]].
  - by rewrite (configure_line_assign "ip" value (fun v => update (set_ip v))).
  - by rewrite (configure_line_assign "username" value (fun v => update (set_username v))).
  - by rewrite (configure_line_assign "password" value (fun v => update (set_password v))).
  - by rewrite (configure_line_assign "dbname" value (fun v => update (set_dbname v))).
Qed.

(** X7: the numeric members take what std::stoi makes of the value; when
    std::stoi throws, the exception leaves the line with nothing written. *)
Theorem configure_line_int_members (value : string) (w : World) :
  has_char newline value = false ->
  value <> EmptyString ->
  let assigned (setter : Z -> ConnectionPool -> ConnectionPool) : outcome unit :=
    match stoi value with
    | Parsed n => Normal tt (set_pool (setter n (pool w)) w)
    | StoiThrows e => Threw e w
    end in
  configure_line port_cast ("port=" +:+ value) w = assigned (fun n => set_port (port_cast n)) /\
  configure_line port_cast ("initSize=" +:+ value) w = assigned set_initSize /\
  configure_line port_cast ("maxSize=" +:+ value) w = assigned set_maxSize /\
  configure_line port_cast ("maxIdleTime=" +:+ value) w = assigned set_maxIdleTime /\
  configure_line port_cast ("connectionTimeOut=" +:+ value) w = assigned set_connectionTimeout.
Proof.
  intros Hv Hne assigned.
  assert (Hassign : forall setter, assign_int setter value w = assigned setter).
  { intros setter. unfold assign_int, assigned. by destruct (stoi value). }
  split; [|split; [|split; [|split]]].
  - by rewrite (configure_line_assign "port" value (assign_int (fun n => set_port (port_cast n)))).
  - by rewrite (configure_line_assign "initSize" value (assign_int set_initSize)).
  - by rewrite (configure_line_assign "maxSize" value (assign_int set_maxSize)).
  - by rewrite (configure_line_assign "maxIdleTime" value (assign_int set_maxIdleTime)).
  - by rewrite (configure_line_assign "connectionTimeOut" value (assign_int set_connectionTimeout)).
Qed.

End ConfigLines.

(** ** std::stoi and what follows the digits *)

Lemma digits_value_tail (s t : string) (c : ascii) (acc : option Z) :
  digit_of c = None ->
  digits_value (s +:+ String c t) acc = digits_value s acc.
Proof.
  intros Hc. revert acc. induction s as [|a s IH]; intros acc; simpl.
  - by rewrite Hc.
  - destruct (digit_of a); [apply IH|done].
Qed.

Lemma skip_space_tail (s x : string) :
  skip_space s <> EmptyString -> skip_space (s +:+ x) = skip_space s +:+ x.
Proof.
  induction s as [|a s IH]; simpl; [done|].
  destruct (isspace a); [apply IH|done].
Qed.

Lemma strip_sign_tail (b x body : string) (neg : bool) :
  b <> EmptyString ->
  strip_sign b = (neg, body) -> strip_sign (b +:+ x) = (neg, body +:+ x).
Proof.
  destruct b as [|a b]; [done|]. intros _.
  destruct a as [[] [] [] [] [] [] [] []]; simpl; by intros [= <- <-].
Qed.

(** X8: a value that std::stoi accepts keeps its meaning when anything that
    does not start with a digit is put behind it: the carriage return of
    a file with CR LF line ends, a unit, a comment. *)
Theorem stoi_ignores_tail (s t : string) (c : ascii) (n : Z) :
  stoi s = Parsed n ->
  digit_of c = None ->
  stoi (s +:+ String c t) = Parsed n.
Proof.
  unfold stoi. intros H Hc.
  destruct (strip_sign (skip_space s)) as [neg body] eqn:Es.
  destruct (digits_value body None) as [v|] eqn:Ed; [|done].
  assert (Hb : skip_space s <> EmptyString).
  { intros E. rewrite E in Es. injection Es as <- <-. done. }
  rewrite (skip_space_tail _ _ Hb), (strip_sign_tail _ _ _ _ Hb Es).
  by rewrite (digits_value_tail _ _ _ _ Hc), Ed.
Qed.

Lemma stoi_ignores_tail_witness :
  stoi "3306" = Parsed 3306 /\
  digit_of "013"%char = None /\
  stoi ("3306" +:+ String "013"%char EmptyString) = Parsed 3306.
Proof.
  split; [reflexivity|]. split; [reflexivity|].
  apply (stoi_ignores_tail "3306" EmptyString "013"%char 3306); reflexivity.
Defined.

(** ** The constructor *)

Section ConstructorResult.

Variable port_cast : Z -> Z.
Variable connect_ok : nat -> bool.

Lemma create_initial_world (n : nat) (w : World) :
  let w' := world_of (create_initial connect_ok n w) in
  que w' = que w ++ initial_connections connect_ok (now w) (next_id w) n /\
  next_id w' = (next_id w + n)%nat /\
  now w' = now w /\ leased w' = leased w.
Proof.
  revert w. induction n as [|n IH]; intros w; cbv zeta.
  - unfold initial_connections. simpl. rewrite app_nil_r. by rewrite Nat.add_0_r.
  - assert (E : create_initial connect_ok (S n) w =
                create_initial connect_ok n (created connect_ok w)).
    { simpl. unfold bind. by rewrite create_connection_eq. }
    rewrite E. destruct (IH (created connect_ok w)) as (Hq & Hn & Ht & Hl).
    rewrite Hq, Hn, Ht, Hl.
    change (que (created connect_ok w)) with (que w ++ [fresh_connection connect_ok w]).
    unfold initial_connections. simpl. rewrite <- app_assoc. simpl.
    split; [done|]. split; [lia|done].
Qed.

Lemma ctor_result (ini : string) (t0 : Z) (w0 : World) :
  ConnectionPool_ctor port_cast connect_ok (Some ini) (fresh_world t0) = Normal true w0 ->
  let n := Z.to_nat (_initSize (pool w0)) in
  que w0 = initial_connections connect_ok t0 0 n /\
  cnt w0 = Z.of_nat n /\
  leased w0 = [] /\
  next_id w0 = n /\
  now w0 = t0.
Proof.
  intros Hctor. pose proof (ctor_spec _ _ _ _ _ Hctor) as (_ & Hcnt & _ & _ & _ & _).
  rewrite ctor_eq in Hctor.
  destruct (load_loop port_cast (load_fuel ini) (open_stream ini) (fresh_world t0))
    as [b w1|e w1|w1] eqn:El; try discriminate.
  assert (H0 : ints_ok (pool (fresh_world t0))).
  { unfold ints_ok, Int_ok, INT_MIN, INT_MAX. simpl. lia. }
  destruct (load_loop_inv _ _ _ _ _ _ El H0) as [_ (Hq & _ & Hn & Hid & Hl & _)].
  pose proof (create_initial_world (Z.to_nat (_initSize (pool w1))) w1) as Hw.
  destruct (create_initial connect_ok (Z.to_nat (_initSize (pool w1))) w1)
    as [u w'|e w'|w'] eqn:Ec; try discriminate.
  injection Hctor as ->. cbv zeta in Hw. simpl world_of in Hw.
  destruct Hw as (Hq' & Hn' & Ht' & Hl').
  assert (Ei : _initSize (pool w0) = _initSize (pool w1)).
  { destruct (create_initial_spec connect_ok (Z.to_nat (_initSize (pool w1))) w1)
      as (w2 & Hrun & _ & Hcfg & _).
    - by destruct (load_loop_inv _ _ _ _ _ _ El H0).
    - destruct (load_loop_inv _ _ _ _ _ _ El H0) as [(Hi & _) (_ & Hc & _)].
      rewrite Hc. change (cnt (fresh_world t0)) with 0.
      unfold Int_ok, INT_MAX in *. lia.
    - rewrite Hrun in Ec. simplify_eq.
      destruct Hcfg as (_ & _ & _ & _ & _ & E & _). by rewrite E. }
  cbv zeta. rewrite Ei.
  rewrite Hq', Hn', Ht', Hl', Hq, Hn, Hid, Hl. simpl.
  repeat split; try done. rewrite Hcnt, Ei. lia.
Qed.

(** X9: a constructor that finds its file and returns has put exactly
    [_initSize] connections in the queue (none for a negative
    [_initSize]), numbered from 0 in queue order and all stamped with the
    time of construction; the counter is their number and no handle is out. *)
Theorem ctor_initial_state (ini : string) (t0 : Z) (w0 : World) :
  ConnectionPool_ctor port_cast connect_ok (Some ini) (fresh_world t0) = Normal true w0 ->
  let n := Z.to_nat (_initSize (pool w0)) in
  que w0 = initial_connections connect_ok t0 0 n /\
  cnt w0 = Z.of_nat n /\
  leased w0 = [] /\
  next_id w0 = n /\
  now w0 = t0.
Proof. apply ctor_result. Qed.

End ConstructorResult.

Lemma ctor_initial_state_witness :
  ConnectionPool_ctor ex_port_cast all_accept (Some ex_ini) (fresh_world 0) =
    Normal true ex_started /\
  que ex_started = initial_connections all_accept 0 0 (Z.to_nat (_initSize (pool ex_started))) /\
  cnt ex_started = Z.of_nat (Z.to_nat (_initSize (pool ex_started))).
Proof.
  split; [apply ex_started_ctor|].
  destruct (ctor_initial_state ex_port_cast all_accept ex_ini 0 ex_started ex_started_ctor)
    as (Hq & Hc & _).
  split; [exact Hq|exact Hc].
Defined.

(** ** Invariants of the running pool *)

Lemma drop_lease_perm (p : Connection) (l : list Connection) :
  p ∈ l -> l ≡ₚ p :: drop_lease p l.
Proof.
  induction l as [|x l IH]; [by intros ?%elem_of_nil|].
  simpl. destruct (decide (x = p)) as [->|Hne]; [done|].
  rewrite elem_of_cons. intros [->|Hin]; [done|].
  rewrite (IH Hin) at 1. apply Permutation_swap.
Qed.

Lemma same_stamp_sorted (t : Z) (l : list Connection) :
  Forall (fun c => _alivetime c = t) l -> StronglySorted stamp_le l.
Proof.
  induction 1 as [|c l Hc Hl IH]; constructor; [done|].
  eapply Forall_impl; [exact Hl|]. intros d Hd. unfold stamp_le. simpl in *. lia.
Qed.

Section Structure.

Variable port_cast : Z -> Z.
Variable connect_ok : nat -> bool.

Lemma initial_connections_ids (t0 : Z) (first n : nat) :
  conn_id <$> initial_connections connect_ok t0 first n = seq first n.
Proof.
  unfold initial_connections. revert first.
  induction n as [|n IH]; intros first; simpl; [done|]. by rewrite IH.
Qed.

Lemma initial_connections_stamps (t0 : Z) (first n : nat) :
  Forall (fun c => _alivetime c = t0) (initial_connections connect_ok t0 first n).
Proof.
  unfold initial_connections. revert first.
  induction n as [|n IH]; intros first; simpl; constructor; [done|apply IH].
Qed.

Lemma step_structure (w w' : World) :
  step connect_ok w w' ->
  ints_ok (pool w) ->
  stamps_past w ->
  (conserved w -> conserved w') /\
  (ids_distinct w -> ids_distinct w') /\
  (StronglySorted stamp_le (que w) -> StronglySorted stamp_le (que w')).
Proof.
  intros Hstep Hints Hpast.
  destruct Hstep as [w d Hd|w w' H|w w' H|w p w' Hne H|w w' He H|w p w' Hin H].
  - (* time passes *) done.
  - (* the producer *)
    rewrite produce_eq in H. destruct (que w) as [|p q] eqn:Hq; [|discriminate].
    injection H as <-.
    destruct (Z.ltb_spec (cnt w) (_maxSize (pool w))) as [Hlt|Hge]; [|by rewrite <- Hq].
    set (w1 := emit EvNotifyAll (created connect_ok w)).
    assert (Hq1 : que w1 = [fresh_connection connect_ok w]).
    { change (que w1) with (que w ++ [fresh_connection connect_ok w]). by rewrite Hq. }
    assert (Hc1 : cnt w1 = cnt w + 1).
    { change (cnt w1) with (wrap_int (cnt w + 1)). apply wrap_int_id.
      destruct Hints as (_ & Hm & _ & _ & Hn). unfold cnt, Int_ok in *. lia. }
    split; [|split].
    + unfold conserved. rewrite Hq1, Hc1, Hq. intros ->. simpl. lia.
    + intros [Hnd Hlt']. rewrite Hq in Hnd, Hlt'. simpl in Hnd, Hlt'.
      unfold ids_distinct. rewrite Hq1. simpl. split.
      * apply NoDup_cons. split; [|done].
        intros (c & Hid & Hc)%list_elem_of_fmap. specialize (Hlt' c Hc). lia.
      * intros c [->|Hc]%elem_of_cons; simpl; [lia|]. specialize (Hlt' c Hc). lia.
    + intros _. rewrite Hq1. repeat constructor.
  - (* the scanner *)
    destruct (scan_spec w Hints) as (ev & Hev & _).
    cbv zeta in Hev. rewrite H in Hev. simpl in Hev.
    destruct Hev as (E1 & E2 & _ & _ & _ & E6 & E7).
    split; [|split].
    + unfold conserved. rewrite E2, E7, E1, length_app. lia.
    + intros [Hnd Hlt]. unfold ids_distinct. rewrite E6, E7. split.
      * rewrite E1, <- app_assoc, fmap_app in Hnd. by apply NoDup_app in Hnd as (_ & _ & Hnd).
      * intros c Hc. apply Hlt. rewrite E1, <- app_assoc. rewrite elem_of_app. by right.
    + rewrite E1. apply StronglySorted_app_1_r.
  - (* a consumer takes the front entry *)
    rewrite take_eq in H. destruct (que w) as [|c q] eqn:Hq; [done|].
    injection H as <- <-.
    change (que (taken w c q)) with q.
    change (leased (taken w c q)) with (leased w ++ [c]).
    split; [|split].
    + unfold conserved. change (cnt (taken w c q)) with (cnt w).
      change (que (taken w c q)) with q.
      change (leased (taken w c q)) with (leased w ++ [c]).
      rewrite Hq, length_app. simpl. lia.
    + intros [Hnd Hlt]. rewrite Hq in Hnd, Hlt. unfold ids_distinct.
      change (que (taken w c q)) with q.
      change (leased (taken w c q)) with (leased w ++ [c]).
      change (next_id (taken w c q)) with (next_id w).
      assert (Hp : q ++ leased w ++ [c] ≡ₚ (c :: q) ++ leased w).
      { simpl. rewrite app_assoc. by rewrite <- Permutation_cons_append. }
      split; [by rewrite Hp|]. intros x Hx. apply Hlt. by rewrite <- Hp.
    + intros Hs. by apply StronglySorted_cons in Hs as [_ Hs].
  - (* a consumer gives up *)
    by injection H as <-.
  - (* a handle is released *)
    rewrite release_eq in H. injection H as <-.
    change (que (released w p)) with (que w ++ [restamped w p]).
    change (leased (released w p)) with (drop_lease p (leased w)).
    pose proof (drop_lease_perm _ _ Hin) as Hperm.
    split; [|split].
    + unfold conserved. change (cnt (released w p)) with (cnt w).
      change (que (released w p)) with (que w ++ [restamped w p]).
      change (leased (released w p)) with (drop_lease p (leased w)).
      intros ->. rewrite length_app. apply Permutation_length in Hperm.
      rewrite Hperm. simpl. lia.
    + intros [Hnd Hlt]. unfold ids_distinct.
      change (que (released w p)) with (que w ++ [restamped w p]).
      change (leased (released w p)) with (drop_lease p (leased w)).
      change (next_id (released w p)) with (next_id w).
      assert (Hids : conn_id <$> ((que w ++ [restamped w p]) ++ drop_lease p (leased w))
                     ≡ₚ conn_id <$> (que w ++ leased w)).
      { rewrite <- app_assoc, !fmap_app. apply Permutation_app_head.
        rewrite Hperm at 2. done. }
      split; [by rewrite Hids|].
      intros c. rewrite <- app_assoc, !elem_of_app, elem_of_cons, elem_of_nil.
      intros [Hc|[[->|[]]|Hc]].
      * apply Hlt. rewrite elem_of_app. by left.
      * simpl. apply (Hlt p). rewrite elem_of_app. by right.
      * apply Hlt. rewrite elem_of_app. right. by eapply elem_of_drop_lease.
    + intros Hs. apply StronglySorted_app_2; [|done|repeat constructor].
      intros x1 x2 Hx1 ->%list_elem_of_singleton. unfold stamp_le. simpl.
      apply Hpast. rewrite elem_of_app. by left.
Qed.

Lemma steps_structure (w0 w : World) :
  rtc (step connect_ok) w0 w ->
  ints_ok (pool w0) ->
  stamps_past w0 ->
  (conserved w0 -> conserved w) /\
  (ids_distinct w0 -> ids_distinct w) /\
  (StronglySorted stamp_le (que w0) -> StronglySorted stamp_le (que w)).
Proof.
  induction 1 as [w|w1 w2 w3 Hstep Hsteps IH]; intros Hints Hpast; [done|].
  destruct (step_invariants _ _ _ Hstep Hints) as (Hints2 & _ & Hs & _).
  destruct (step_structure _ _ Hstep Hints Hpast) as (Hc & Hi & Ho).
  destruct (IH Hints2 (Hs Hpast)) as (Hc' & Hi' & Ho').
  auto.
Qed.

Lemma reachable_structure (ini : string) (t0 : Z) (w : World) :
  reachable port_cast connect_ok ini t0 w ->
  conserved w /\ ids_distinct w /\ StronglySorted stamp_le (que w).
Proof.
  intros (w0 & Hctor & Hsteps).
  pose proof (ctor_spec _ _ _ _ _ Hctor) as (Hints & _ & Hpast & _).
  destruct (ctor_result _ _ _ _ _ Hctor) as (Hq & Hc & Hl & Hn & _).
  destruct (steps_structure _ _ Hsteps Hints Hpast) as (Hc' & Hi' & Ho').
  split; [|split].
  - apply Hc'. unfold conserved. rewrite Hc, Hq, Hl.
    unfold initial_connections. rewrite length_fmap, length_seq. simpl. lia.
  - apply Hi'. unfold ids_distinct. rewrite Hl, app_nil_r, Hq, Hn.
    rewrite initial_connections_ids. split; [apply NoDup_seq|].
    intros c Hc0. apply (list_elem_of_fmap_2 conn_id) in Hc0.
    rewrite initial_connections_ids in Hc0. apply elem_of_seq in Hc0. lia.
  - apply Ho'. rewrite Hq. eapply same_stamp_sorted, initial_connections_stamps.
Qed.

(** X10: in every state of the running pool the live counter is the number
    of connections in the idle queue plus the number of handles that are
    out. *)
Theorem live_count_is_idle_plus_leased (ini : string) (t0 : Z) (w : World) :
  reachable port_cast connect_ok ini t0 w ->
  cnt w = Z.of_nat (length (que w) + length (leased w)).
Proof. intros H. by destruct (reachable_structure _ _ _ H) as (Hc & _). Qed.

(** X11: in every state of the running pool a connection is in the idle
    queue or in one caller's hands, never twice and never in both, and
    its identity is one that [new] has handed out. *)
Theorem connections_held_once (ini : string) (t0 : Z) (w : World) :
  reachable port_cast connect_ok ini t0 w ->
  NoDup (conn_id <$> (que w ++ leased w)) /\
  forall c, c ∈ que w ++ leased w -> (conn_id c < next_id w)%nat.
Proof. intros H. by destruct (reachable_structure _ _ _ H) as (_ & Hi & _). Qed.

(** X12: in every state of the running pool the idle queue is ordered by idle
    time, longest idle at the front, and no stamp lies in the future. *)
Theorem queue_longest_idle_first (ini : string) (t0 : Z) (w : World) :
  reachable port_cast connect_ok ini t0 w ->
  StronglySorted stamp_le (que w) /\
  (forall c, c ∈ que w -> _alivetime c <= now w).
Proof.
  intros H. destruct (reachable_structure _ _ _ H) as (_ & _ & Hs).
  destruct (reachable_invariants _ _ _ _ _ H) as (_ & Hpast & _).
  split; [done|]. intros c Hc. apply Hpast. rewrite elem_of_app. by left.
Qed.

(** X13: the remark at line 207: when a scan of the running pool stops with
    the counter still above [_initSize], no entry left in the queue is
    stale, not only the one at the front. *)
Theorem scanner_leaves_no_stale_entry (ini : string) (t0 : Z) (w w' : World) :
  reachable port_cast connect_ok ini t0 w ->
  scannerConnectionTask_scan w = Normal tt w' ->
  cnt w' <= _initSize (pool w) \/ Forall (fun p => ~ stale w p) (que w').
Proof.
  intros Hreach Hscan.
  destruct (reachable_invariants _ _ _ _ _ Hreach) as (Hints & _ & _).
  destruct (reachable_structure _ _ _ Hreach) as (_ & _ & Hs).
  destruct (scan_spec w Hints) as (ev & Hev & _ & _ & _ & Hend & _).
  cbv zeta in Hev, Hend. rewrite Hscan in Hev, Hend. simpl in Hev, Hend.
  destruct Hend as [[_ [Hle|(p & rest & Hq & Hfresh)]]|[Hu _]]; [by left| |discriminate].
  right. destruct Hev as (E1 & _). rewrite E1 in Hs.
  apply StronglySorted_app_1_r in Hs. rewrite Hq in *.
  apply StronglySorted_cons in Hs as [Hall _].
  constructor; [done|]. eapply Forall_impl; [exact Hall|].
  intros c Hc. unfold stale, stamp_le in *. lia.
Qed.

(** X14: while no more than [_initSize] handles are out, a scan of the running
    pool never reaches the front of an empty queue: it returns. *)
Theorem scan_returns_with_few_leases (ini : string) (t0 : Z) (w : World) :
  reachable port_cast connect_ok ini t0 w ->
  Z.of_nat (length (leased w)) <= _initSize (pool w) ->
  exists w', scannerConnectionTask_scan w = Normal tt w'.
Proof.
  intros Hreach Hfew.
  destruct (reachable_invariants _ _ _ _ _ Hreach) as (Hints & _ & _).
  destruct (reachable_structure _ _ _ Hreach) as (Hc & _ & _).
  destruct (scan_spec w Hints) as (ev & Hev & _ & _ & _ & Hend & _).
  cbv zeta in Hev, Hend.
  destruct Hend as [[Ho _]|(Ho & Hq & Hgt)]; [eauto|].
  destruct Hev as (E1 & E2 & _). rewrite Hq, app_nil_r in E1.
  unfold conserved in Hc. rewrite E1 in Hc. lia.
Qed.

End Structure.

(** ** More on the scanner *)

(** X15: a scan that has returned has nothing left to do: a second scan at
    the same time returns at once and changes nothing. *)
Theorem scan_twice_is_scan_once (w w' : World) :
  ints_ok (pool w) ->
  scannerConnectionTask_scan w = Normal tt w' ->
  scannerConnectionTask_scan w' = Normal tt w'.
Proof.
  intros Hints Hscan.
  destruct (scan_spec w Hints) as (ev & Hev & _ & _ & _ & Hend & _).
  cbv zeta in Hev, Hend. rewrite Hscan in Hev, Hend. simpl in Hev, Hend.
  destruct Hev as (_ & _ & _ & Hcfg & Hnow & _).
  assert (Ei : _initSize (pool w') = _initSize (pool w)) by (symmetry; apply Hcfg).
  rewrite scan_unfold, scanner_loop_unfold, Ei.
  destruct Hend as [[_ Hstop]|[Hu _]]; [|discriminate].
  destruct (Z.gtb_spec (cnt w') (_initSize (pool w))) as [Hgt|Hle]; [|done].
  destruct Hstop as [Hle|(p & rest & Hq & Hfresh)]; [lia|].
  rewrite Hq. unfold stale in Hfresh.
  rewrite <- (same_config_threshold _ _ Hcfg), Hnow.
  by destruct (Z.geb_spec (now w - _alivetime p) (idle_threshold (pool w))) as [Hge|_]; [lia|].
Qed.

Lemma ex_idle_scan : scannerConnectionTask_scan ex_idle = Normal tt ex_scanned.
Proof. reflexivity. Qed.

Lemma scan_twice_is_scan_once_witness :
  ints_ok (pool ex_idle) /\
  scannerConnectionTask_scan ex_idle = Normal tt ex_scanned /\
  scannerConnectionTask_scan ex_scanned = Normal tt ex_scanned.
Proof.
  split; [apply ex_idle_ints|]. split; [apply ex_idle_scan|].
  apply (scan_twice_is_scan_once ex_idle ex_scanned ex_idle_ints ex_idle_scan).
Defined.



(** ** Handing out and taking back *)

Lemma drop_lease_last (p : Connection) (l : list Connection) :
  p ∉ l -> drop_lease p (l ++ [p]) = l.
Proof.
  induction l as [|x l IH]; simpl.
  - intros _. by destruct (decide (p = p)).
  - rewrite not_elem_of_cons. intros [Hne Hl].
    destruct (decide (x = p)) as [->|_]; [done|]. by rewrite IH.
Qed.

Section Flows.

Variable port_cast : Z -> Z.
Variable connect_ok : nat -> bool.

(** X17: with an entry in the queue getConnection returns the front entry
    without waiting; when the caller lets go of the handle [d] ms later, the
    connection is back at the tail of the queue with a new stamp, and the
    counter and the other handles are as they were before the call: one
    round through the caller's hands rotates the queue by one. *)
Theorem acquire_then_release_rotates (ini : string) (t0 d : Z) (w : World)
    (envs : list (World -> World)) (p : Connection) (q : list Connection) :
  reachable port_cast connect_ok ini t0 w ->
  que w = p :: q ->
  exists w1 w2,
    getConnection envs w = Normal (Returned (Some p)) w1 /\
    release p (tick d w1) = Normal tt w2 /\
    que w2 = q ++ [{| conn_id := conn_id p; conn_connected := conn_connected p;
                      _alivetime := now w + d |}] /\
    cnt w2 = cnt w /\
    leased w2 = leased w /\
    same_config (pool w) (pool w2).
Proof.
  intros Hreach Hq.
  destruct (reachable_structure _ _ _ _ _ Hreach) as (_ & [Hnd _] & _).
  assert (Hp : p ∉ leased w).
  { rewrite Hq in Hnd. simpl in Hnd. apply NoDup_cons in Hnd as [Hnot _].
    intros Hin. apply Hnot. apply list_elem_of_fmap_2. rewrite elem_of_app. by right. }
  exists (taken w p q), (released (tick d (taken w p q)) p).
  split; [by rewrite getConnection_eq, Hq|]. split; [apply release_eq|].
  split; [done|]. split; [done|]. split; [|by repeat split].
  change (leased (released (tick d (taken w p q)) p)) with (drop_lease p (leased w ++ [p])).
  by apply drop_lease_last.
Qed.

(** X18: a call that finds a connection in the queue after a wait takes it,
    also when the wait has lasted the whole timeout or longer: null is
    returned only with the queue empty. *)
Theorem acquire_after_wait_takes_connection (env : World -> World)
    (envs : list (World -> World)) (w : World) (p : Connection) (q : list Connection) :
  que w = [] ->
  que (env w) = p :: q ->
  getConnection (env :: envs) w = Normal (Returned (Some p)) (taken (env w) p q).
Proof.
  intros Hq Hq'. rewrite getConnection_eq, Hq, Hq'.
  destruct (now (env w) - now w <? _connectionTimeout (pool w));
    by rewrite getConnection_eq, Hq'.
Qed.

(** X19: the producer fills an empty queue for the caller that waits: after
    its turn on an empty queue with the counter below [_maxSize], a call of
    getConnection gets the connection just created, the queue is empty
    again and the counter is one higher. *)
Theorem producer_serves_waiting_caller (w : World) (envs : list (World -> World)) :
  ints_ok (pool w) ->
  que w = [] ->
  cnt w < _maxSize (pool w) ->
  exists w1 w2,
    produceConnectionTask_iter connect_ok w = Normal Iterated w1 /\
    getConnection envs w1 = Normal (Returned (Some (fresh_connection connect_ok w))) w2 /\
    que w2 = [] /\
    cnt w2 = cnt w + 1 /\
    leased w2 = leased w ++ [fresh_connection connect_ok w].
Proof.
  intros Hints Hq Hlt.
  set (w1 := emit EvNotifyAll (created connect_ok w)).
  assert (Hq1 : que w1 = [fresh_connection connect_ok w]).
  { change (que w1) with (que w ++ [fresh_connection connect_ok w]). by rewrite Hq. }
  exists w1, (taken w1 (fresh_connection connect_ok w) []).
  split.
  { rewrite produce_eq, Hq.
    by destruct (Z.ltb_spec (cnt w) (_maxSize (pool w))) as [_|Hge]; [|lia]. }
  split; [by rewrite getConnection_eq, Hq1|]. split; [done|]. split; [|done].
  change (cnt (taken w1 (fresh_connection connect_ok w) [])) with (wrap_int (cnt w + 1)).
  apply wrap_int_id. destruct Hints as (_ & Hm & _ & _ & Hn).
  unfold cnt, Int_ok in *. lia.
Qed.

(** X20: a pool whose configuration file is missing has a timeout of 0 and
    nothing in its queue: a call of getConnection returns the null pointer
    after its first wait, however short, unless somebody has put a
    connection in the queue meanwhile. *)
Theorem unconfigured_pool_gives_null (t0 : Z) (env : World -> World)
    (envs : list (World -> World)) :
  let w := world_of (ConnectionPool_ctor port_cast connect_ok None (fresh_world t0)) in
  que (env w) = [] ->
  now w <= now (env w) ->
  getConnection (env :: envs) w = Normal (Returned None) (emit (EvLog timeout_msg) (env w)).
Proof.
  intros w Hq Hnow. rewrite getConnection_eq. change (que w) with (@nil Connection).
  change (_connectionTimeout (pool w)) with 0.
  destruct (Z.ltb_spec (now (env w) - now w) 0) as [Hlt|_]; [lia|]. by rewrite Hq.
Qed.

(** X21: connections are destroyed by the scanner only: a turn of the
    producer, the hand-out and the give-up of getConnection and the
    deleter of a handle never emit a destruction. *)
Theorem only_scanner_destroys (w : World) (pcon : Connection) (id : nat) :
  (EvDelete id ∉ emitted (produceConnectionTask_iter connect_ok) w) /\
  (EvDelete id ∉ emitted getConnection_take w) /\
  (EvDelete id ∉ emitted getConnection_timeout w) /\
  (EvDelete id ∉ emitted (release pcon) w).
Proof.
  rewrite emitted_produce, emitted_take, emitted_release.
  assert (Ht : emitted getConnection_timeout w = [EvLog timeout_msg]).
  { apply emitted_app. done. }
  rewrite Ht. unfold creation_events.
  destruct (que w); destruct (cnt w <? _maxSize (pool w)); simpl;
    repeat split; intros H;
    repeat (apply elem_of_cons in H as [H|H]; [discriminate|]);
    by apply elem_of_nil in H.
Qed.

End Flows.

(** ** The further properties at work on the example *)

Lemma loadConfigFile_by_lines_witness :
  has_char newline "initSize=1" = false /\
  loadConfigFile ex_port_cast (Some ("initSize=1" +:+ String newline "maxSize=2")) (fresh_world 0) =
    (configure_line ex_port_cast "initSize=1" ;;
     loadConfigFile ex_port_cast (Some "maxSize=2"%string)) (fresh_world 0).
Proof.
  split; [reflexivity|].
  apply (loadConfigFile_by_lines ex_port_cast "initSize=1" "maxSize=2" (fresh_world 0)).
  reflexivity.
Defined.

Lemma ex_loaded_load :
  loadConfigFile ex_port_cast (Some ex_ini) (fresh_world 0) = Normal true ex_loaded.
Proof. vm_compute. reflexivity. Qed.

Lemma loadConfigFile_frame_witness :
  loadConfigFile ex_port_cast (Some ex_ini) (fresh_world 0) = Normal true ex_loaded /\
  config_only (fresh_world 0) ex_loaded.
Proof.
  split; [apply ex_loaded_load|].
  destruct (loadConfigFile_frame ex_port_cast ex_ini (fresh_world 0) ex_loaded true ex_loaded_load)
    as (_ & Hc & _).
  exact Hc.
Defined.

Lemma configure_line_no_separator_witness :
  has_char "="%char "# pool settings" = false /\
  configure_line ex_port_cast "# pool settings" ex_loaded = Normal tt ex_loaded.
Proof.
  split; [reflexivity|].
  apply (configure_line_no_separator ex_port_cast "# pool settings" ex_loaded). reflexivity.
Defined.

Lemma configure_line_unknown_key_witness :
  has_char "="%char "charset" = false /\
  configMap ex_port_cast !! "charset"%string = None /\
  configure_line ex_port_cast ("charset" +:+ String "="%char "utf8") ex_loaded =
    Normal tt ex_loaded.
Proof.
  split; [reflexivity|]. split; [reflexivity|].
  apply (configure_line_unknown_key ex_port_cast "charset" "utf8" ex_loaded); reflexivity.
Defined.

Lemma configure_line_empty_value_witness :
  has_char "="%char "maxSize" = false /\
  configure_line ex_port_cast ("maxSize" +:+ "=") ex_loaded = Normal tt ex_loaded.
Proof.
  split; [reflexivity|].
  apply (configure_line_empty_value ex_port_cast "maxSize" ex_loaded). reflexivity.
Defined.

Lemma configure_line_text_members_witness :
  has_char newline "p=1 2" = false /\
  "p=1 2"%string <> EmptyString /\
  configure_line ex_port_cast ("password=" +:+ "p=1 2") ex_loaded =
    Normal tt (set_pool (set_password "p=1 2" (pool ex_loaded)) ex_loaded).
Proof.
  split; [reflexivity|]. split; [discriminate|].
  apply (configure_line_text_members ex_port_cast "p=1 2" ex_loaded);
    [reflexivity|discriminate].
Defined.

Lemma configure_line_int_members_witness :
  has_char newline "8 connections" = false /\
  "8 connections"%string <> EmptyString /\
  configure_line ex_port_cast ("maxSize=" +:+ "8 connections") ex_loaded =
    Normal tt (set_pool (set_maxSize 8 (pool ex_loaded)) ex_loaded).
Proof.
  split; [reflexivity|]. split; [discriminate|].
  apply (configure_line_int_members ex_port_cast "8 connections" ex_loaded);
    [reflexivity|discriminate].
Defined.

Lemma live_count_is_idle_plus_leased_witness :
  reachable ex_port_cast all_accept ex_ini 0 ex_exhausted /\
  cnt ex_exhausted = Z.of_nat (length (que ex_exhausted) + length (leased ex_exhausted)).
Proof.
  split; [apply ex_exhausted_reachable|].
  apply (live_count_is_idle_plus_leased ex_port_cast all_accept ex_ini 0 ex_exhausted).
  apply ex_exhausted_reachable.
Defined.

Lemma connections_held_once_witness :
  reachable ex_port_cast all_accept ex_ini 0 ex_idle /\
  NoDup (conn_id <$> (que ex_idle ++ leased ex_idle)).
Proof.
  split; [apply ex_idle_reachable|].
  apply (connections_held_once ex_port_cast all_accept ex_ini 0 ex_idle).
  apply ex_idle_reachable.
Defined.

Lemma queue_longest_idle_first_witness :
  reachable ex_port_cast all_accept ex_ini 0 ex_idle /\
  StronglySorted stamp_le (que ex_idle).
Proof.
  split; [apply ex_idle_reachable|].
  apply (queue_longest_idle_first ex_port_cast all_accept ex_ini 0 ex_idle).
  apply ex_idle_reachable.
Defined.

Lemma ex3_mixed_reachable : reachable ex_port_cast all_accept ex_ini3 0 ex3_mixed.
Proof.
  exists ex3_started. split; [vm_compute; reflexivity|].
  apply (rtc_l _ _ ex3_take0); [by apply (step_take _ _ ex_conn0)|].
  apply (rtc_l _ _ ex3_made1); [by apply step_produce|].
  apply (rtc_l _ _ ex3_take1); [by apply (step_take _ _ ex_conn1)|].
  apply (rtc_l _ _ ex3_made2); [by apply step_produce|].
  apply (rtc_l _ _ ex3_leased); [by apply (step_take _ _ ex_conn2)|].
  apply (rtc_l _ _ (tick 1000 ex3_leased)); [apply step_tick; lia|].
  apply (rtc_l _ _ ex3_back0).
  { apply (step_release _ _ ex_conn0); [|reflexivity]. simpl. set_solver. }
  apply (rtc_l _ _ (tick 1500 ex3_back0)); [apply step_tick; lia|].
  apply (rtc_l _ _ ex3_back1).
  { apply (step_release _ _ ex_conn1); [|reflexivity]. simpl. set_solver. }
  apply (rtc_l _ _ (world_of (release ex_conn2 ex3_back1))).
  { apply (step_release _ _ ex_conn2); [|reflexivity]. simpl. set_solver. }
  apply (rtc_l _ _ (tick 600 (world_of (release ex_conn2 ex3_back1))));
    [apply step_tick; lia|].
  apply rtc_refl.
Qed.

Lemma ex3_mixed_scan : scannerConnectionTask_scan ex3_mixed = Normal tt ex3_scanned.
Proof. reflexivity. Qed.

(** The scan destroys the connection that has been idle for 2100 ms and
    stops, with the counter at 2 above [_initSize] = 1, at two connections
    idle for 600 ms. *)
Lemma scanner_leaves_no_stale_entry_witness :
  reachable ex_port_cast all_accept ex_ini3 0 ex3_mixed /\
  scannerConnectionTask_scan ex3_mixed = Normal tt ex3_scanned /\
  emitted scannerConnectionTask_scan ex3_mixed = [EvPop 0; EvCntDecr; EvDelete 0] /\
  _initSize (pool ex3_mixed) < cnt ex3_scanned /\
  length (que ex3_scanned) = 2%nat /\
  Forall (fun p => ~ stale ex3_mixed p) (que ex3_scanned).
Proof.
  split; [apply ex3_mixed_reachable|]. split; [apply ex3_mixed_scan|].
  split; [reflexivity|]. split; [by vm_compute|]. split; [reflexivity|].
  destruct (scanner_leaves_no_stale_entry ex_port_cast all_accept ex_ini3 0 ex3_mixed ex3_scanned
              ex3_mixed_reachable ex3_mixed_scan) as [Hle|Hall].
  - exfalso. assert (Hgt : _initSize (pool ex3_mixed) < cnt ex3_scanned) by (by vm_compute).
    lia.
  - exact Hall.
Defined.

Lemma scan_returns_with_few_leases_witness :
  reachable ex_port_cast all_accept ex_ini 0 ex_idle /\
  Z.of_nat (length (leased ex_idle)) <= _initSize (pool ex_idle) /\
  exists w', scannerConnectionTask_scan ex_idle = Normal tt w'.
Proof.
  split; [apply ex_idle_reachable|]. split; [by vm_compute|].
  apply (scan_returns_with_few_leases ex_port_cast all_accept ex_ini 0 ex_idle).
  - apply ex_idle_reachable.
  - by vm_compute.
Defined.

Lemma acquire_then_release_rotates_witness :
  reachable ex_port_cast all_accept ex_ini 0 ex_started /\
  que ex_started = [ex_conn0] /\
  exists w1 w2,
    getConnection [] ex_started = Normal (Returned (Some ex_conn0)) w1 /\
    release ex_conn0 (tick 250 w1) = Normal tt w2 /\
    que w2 = [{| conn_id := 0; conn_connected := true; _alivetime := 250 |}] /\
    cnt w2 = cnt ex_started.
Proof.
  assert (Hr : reachable ex_port_cast all_accept ex_ini 0 ex_started).
  { exists ex_started. split; [apply ex_started_ctor|apply rtc_refl]. }
  split; [exact Hr|]. split; [reflexivity|].
  destruct (acquire_then_release_rotates ex_port_cast all_accept ex_ini 0 250 ex_started []
              ex_conn0 [] Hr eq_refl) as (w1 & w2 & H1 & H2 & Hq & Hc & _).
  exists w1, w2. split; [exact H1|]. split; [exact H2|]. split; [exact Hq|exact Hc].
Defined.

Lemma acquire_after_wait_takes_connection_witness :
  que ex_exhausted = [] /\
  que (ex_release_during_wait ex_exhausted) =
    [{| conn_id := 0; conn_connected := true; _alivetime := 100 |}] /\
  getConnection [ex_release_during_wait] ex_exhausted =
    Normal (Returned (Some {| conn_id := 0; conn_connected := true; _alivetime := 100 |}))
      (taken (ex_release_during_wait ex_exhausted)
         {| conn_id := 0; conn_connected := true; _alivetime := 100 |} []).
Proof.
  split; [reflexivity|]. split; [reflexivity|].
  apply (acquire_after_wait_takes_connection ex_release_during_wait [] ex_exhausted);
    reflexivity.
Defined.

Lemma producer_serves_waiting_caller_witness :
  ints_ok (pool ex_one_leased) /\
  que ex_one_leased = [] /\
  cnt ex_one_leased < _maxSize (pool ex_one_leased) /\
  exists w1 w2,
    produceConnectionTask_iter all_accept ex_one_leased = Normal Iterated w1 /\
    getConnection [] w1 =
      Normal (Returned (Some (fresh_connection all_accept ex_one_leased))) w2 /\
    que w2 = [] /\ cnt w2 = cnt ex_one_leased + 1.
Proof.
  split; [apply ex_one_leased_ints|]. split; [reflexivity|]. split; [by vm_compute|].
  destruct (producer_serves_waiting_caller all_accept ex_one_leased [] ex_one_leased_ints eq_refl)
    as (w1 & w2 & H1 & H2 & Hq & Hc & _); [by vm_compute|].
  exists w1, w2. split; [exact H1|]. split; [exact H2|]. split; [exact Hq|exact Hc].
Defined.

Lemma unconfigured_pool_gives_null_witness :
  que (tick 5 (world_of (ConnectionPool_ctor ex_port_cast all_accept None (fresh_world 0)))) = [] /\
  getConnection [tick 5]
    (world_of (ConnectionPool_ctor ex_port_cast all_accept None (fresh_world 0))) =
  Normal (Returned None)
    (emit (EvLog timeout_msg)
       (tick 5 (world_of (ConnectionPool_ctor ex_port_cast all_accept None (fresh_world 0))))).
Proof.
  split; [reflexivity|].
  apply (unconfigured_pool_gives_null ex_port_cast all_accept 0 (tick 5) []).
  - reflexivity.
  - simpl. lia.
Defined.
